(** * A shallow embedding of xiaoke_agentic_rag

    The development covers three parts of the repository:
    - [src/agentic_rag.py]: the retrieve / reflect / refine loop of
      [AgenticRAG.query], with its collaborators (vector search, chat
      completion, [json.loads]) taken as parameters;
    - [src/tests/recursive_text_splitter.py]: [RecursiveTextSplitter];
    - [src/get_text_embedding.py]: the cached, batched embedding lookup.

    A Python [str] is a list of code points ([Z]). *)

From Stdlib Require Import ZArith Lia.
From stdpp Require Import base list sorting gmap strings.

Open Scope Z_scope.
Set Warnings "-register-all".

(* ------------------------------------------------------------------ *)
(** ** Python strings *)

Definition pychar := Z.
Definition pystr := list pychar.

(** The code points for which Python's [str.isspace] holds: the set that
    [str.strip()] removes. *)
Definition is_space (c : pychar) : bool :=
  ((9 <=? c) && (c <=? 13)) || ((28 <=? c) && (c <=? 32)) ||
  (c =? 133) || (c =? 160) || (c =? 5760) ||
  ((8192 <=? c) && (c <=? 8202)) || (c =? 8232) || (c =? 8233) ||
  (c =? 8239) || (c =? 8287) || (c =? 12288).

Fixpoint lstrip (s : pystr) : pystr :=
  match s with
  | [] => []
  | c :: s' => if is_space c then lstrip s' else s
  end.

(** [s.strip()] *)
Definition strip (s : pystr) : pystr := rev (lstrip (rev (lstrip s))).

(** [len(s)] as a Python int. *)
Definition len (s : pystr) : Z := Z.of_nat (length s).

(** A Rocq string literal as a Python string (ASCII code points). *)
Fixpoint lit (s : string) : pystr :=
  match s with
  | EmptyString => []
  | String a s' => Z.of_nat (Ascii.nat_of_ascii a) :: lit s'
  end.

Definition startswith (s p : pystr) : bool :=
  bool_decide (take (length p) s = p).

Definition endswith (s p : pystr) : bool :=
  bool_decide (length p <= length s)%nat &&
  bool_decide (drop (length s - length p) s = p).

(* ------------------------------------------------------------------ *)
(** ** Exceptions and the error monad *)

Inductive exc :=
| TypeError          (* hashing an unhashable value (list, dict) *)
| AttributeError.    (* [.encode] on a value that is not a [str] *)

Inductive result (A : Type) :=
| Ok (a : A)
| Err (e : exc).
Arguments Ok {A} a.
Arguments Err {A} e.

Global Instance result_ret : MRet result := fun A a => Ok a.
Global Instance result_bind : MBind result := fun A B f m =>
  match m with
  | Ok a => f a
  | Err e => Err e
  end.

(* ------------------------------------------------------------------ *)
(** ** Values produced by [json.loads]

    JSON numbers are modelled by their integer value. *)

Inductive json :=
| JNull
| JBool (b : bool)
| JNum (z : Z)
| JStr (s : pystr)
| JArr (l : list json)
| JObj (kvs : list (pystr * json)).

(** Python truthiness of a decoded value. *)
Definition truthy (v : json) : bool :=
  match v with
  | JNull => false
  | JBool b => b
  | JNum z => negb (z =? 0)
  | JStr s => negb (bool_decide (s = []))
  | JArr l => negb (bool_decide (l = []))
  | JObj kvs => negb (bool_decide (kvs = []))
  end.

(** Whether the value can be put in a Python [set]. *)
Definition hashable (v : json) : bool :=
  match v with
  | JArr _ | JObj _ => false
  | _ => true
  end.

(** Python [==] between hashable values ([True == 1], [False == 0]). *)
Definition py_eq (v w : json) : bool :=
  match v, w with
  | JNull, JNull => true
  | JBool a, JBool b => Bool.eqb a b
  | JBool a, JNum z | JNum z, JBool a => z =? (if a then 1 else 0)
  | JNum a, JNum b => a =? b
  | JStr a, JStr b => bool_decide (a = b)
  | _, _ => false
  end.

(** [v in s] for a Python set [s] of hashable values. *)
Definition py_mem (v : json) (s : list json) : bool :=
  existsb (py_eq v) s.

(** [d.get(k)] on a decoded object: the last binding of a key wins, as
    in [json.loads]. *)
Fixpoint assoc (k : pystr) (kvs : list (pystr * json)) : option json :=
  match kvs with
  | [] => None
  | (k', v) :: kvs' => if bool_decide (k' = k) then Some v else assoc k kvs'
  end.

Definition obj_get (k : pystr) (kvs : list (pystr * json)) : option json :=
  assoc k (reverse kvs).

(* ------------------------------------------------------------------ *)
(** ** [src/agentic_rag.py]: the data *)

(** A search hit as built by [VectorDatabase.search]: its [text], its
    [score] (a float, kept opaque) and its Milvus [id]. *)
Record passage := mk_passage { text : pystr; score : Z; pid : Z }.

(** What a [chat(messages)] call is asked: the three prompts of
    [AgenticRAG], each with the data it is built from. *)
Inductive chat_req :=
| InitialAnswer (query : pystr) (docs : list passage)
| Reflect (query answer : pystr) (ndocs : nat)
| ImprovedAnswer (query : pystr) (docs : list passage) (iteration : Z).

(** Calls to the collaborators, in the order they are made. *)
Inductive event :=
| Search (q : json) (limit : Z)
| Chat (r : chat_req).

(** The mutable part of an [AgenticRAG] instance, [self.query_history],
    together with the log of the external calls made so far. *)
Record rag := mk_rag { query_history : list json; events : list event }.

(** The reflection dictionary once [reflect_on_answer] has validated it:
    [is_complete] is a bool and [search_queries] a list (of any values). *)
Record reflection := mk_reflection {
  is_complete : bool;
  missing_info : option json;
  search_queries : list json }.

Record iteration_info := mk_iteration_info {
  it_iteration : Z;
  it_answer : pystr;
  it_reflection : reflection;
  it_search_results_count : nat }.

Record final_result := mk_final_result {
  fr_query : pystr;
  final_answer : pystr;
  total_search_results : nat;
  iterations : nat;
  iteration_history : list iteration_info;
  all_search_results : list passage }.

(** The queries sent to the retriever, in order. *)
Definition issued (evs : list event) : list json :=
  omap (fun e => match e with Search q _ => Some q | Chat _ => None end) evs.

(** The fallback dictionary of [reflect_on_answer]. *)
Definition default_reflection : reflection :=
  mk_reflection false
    (Some (JStr [26080; 27861; 35299; 26512; 21453; 24605; 32467; 26524]))
    [].

(** The markdown-fence cleaning of [reflect_on_answer]. *)
Definition clean_fences (raw : pystr) : pystr :=
  let t := strip raw in
  let t := if startswith t (lit "```json") then drop 7 t
           else if startswith t (lit "```") then drop 3 t
           else t in
  let t := if endswith t (lit "```") then take (length t - 3) t else t in
  strip t.

(** The structure check inside the [try] block: [None] is any exception
    ([AttributeError] of [.get] on a non-dict, the [ValueError] for a
    non-boolean [is_complete]); a non-list [search_queries] is replaced
    by [[]]. *)
Definition validate (j : json) : option reflection :=
  match j with
  | JObj kvs =>
      match obj_get (lit "is_complete") kvs with
      | Some (JBool b) =>
          Some (mk_reflection b (obj_get (lit "missing_info") kvs)
                  (match obj_get (lit "search_queries") kvs with
                   | Some (JArr l) => l
                   | _ => []
                   end))
      | _ => None
      end
  | _ => None
  end.

(* ------------------------------------------------------------------ *)
(** ** [src/agentic_rag.py]: the operations

    The collaborators are parameters: [retrieve n q limit] is what the
    vector search returns for the [n]-th external call, [chat n r] the
    text of the completion for the [n]-th call, and [json_loads] is
    [json.loads] ([None] for [JSONDecodeError]). Indexing by the call
    number lets the responses be any sequence whatsoever. *)

Section Agentic.

Variable retrieve : nat -> pystr -> Z -> list passage.
Variable chat : nat -> chat_req -> pystr.
Variable json_loads : pystr -> option json.

Definition parse_reflection (raw : pystr) : reflection :=
  match json_loads (clean_fences raw) ≫= validate with
  | Some r => r
  | None => default_reflection
  end.

Definition log (st : rag) (e : event) : rag :=
  mk_rag (query_history st) (events st ++ [e]).

(** [self.db.search(self.collection_name, query, limit=limit)]: a query
    that is not a [str] fails in [get_cache_key] ([text.encode]).  A
    [str] is taken to be encodable in UTF-8: the [UnicodeEncodeError] of
    [text.encode('utf-8')] on a lone surrogate code point is left out. *)
Definition db_search (st : rag) (q : json) (limit : Z)
    : result (rag * list passage) :=
  match q with
  | JStr s => Ok (log st (Search q limit), retrieve (length (events st)) s limit)
  | _ => Err AttributeError
  end.

Definition chat_call (st : rag) (r : chat_req) : rag * pystr :=
  (log st (Chat r), chat (length (events st)) r).

Definition initial_search (st : rag) (query : pystr)
    : result (rag * list passage) :=
  '(st, results) ← db_search st (JStr query) 5;
  Ok (mk_rag (query_history st ++ [JStr query]) (events st), results).

Definition generate_initial_answer (st : rag) (query : pystr)
    (search_results : list passage) : rag * pystr :=
  chat_call st (InitialAnswer query search_results).

Definition reflect_on_answer (st : rag) (query answer : pystr)
    (search_results : list passage) : rag * reflection :=
  let '(st, raw) := chat_call st (Reflect query answer (length search_results)) in
  (st, parse_reflection raw).

Definition generate_improved_answer (st : rag) (query : pystr)
    (all_search_results : list passage) (iteration : Z) : rag * pystr :=
  chat_call st (ImprovedAnswer query all_search_results iteration).

(** The query filter of [refined_search]: a falsy entry and an entry
    already in [self.query_history] are skipped, any other one is kept
    and added to the history; testing an unhashable entry against the
    set raises [TypeError]. Returns the new queries and the history. *)
Fixpoint filter_new (hist : list json) (qs : list json)
    : result (list json * list json) :=
  match qs with
  | [] => Ok ([], hist)
  | q :: qs' =>
      if truthy q then
        if hashable q then
          if py_mem q hist then filter_new hist qs'
          else '(nq, h) ← filter_new (hist ++ [q]) qs'; Ok (q :: nq, h)
        else Err TypeError
      else filter_new hist qs'
  end.

(** The de-duplication of one query's results against [previous_texts],
    which grows as results are kept. *)
Fixpoint keep_unseen (seen : list pystr) (rs : list passage)
    : list passage * list pystr :=
  match rs with
  | [] => ([], seen)
  | r :: rs' =>
      if bool_decide (text r ∈ seen) then keep_unseen seen rs'
      else let '(u, seen') := keep_unseen (seen ++ [text r]) rs' in (r :: u, seen')
  end.

(** The loop over the new queries, one [limit=3] search each. *)
Fixpoint search_each (st : rag) (seen : list pystr) (qs : list json)
    : result (rag * list passage) :=
  match qs with
  | [] => Ok (st, [])
  | q :: qs' =>
      '(st, new_results) ← db_search st q 3;
      let '(unique_results, seen) := keep_unseen seen new_results in
      '(st, rest) ← search_each st seen qs';
      Ok (st, unique_results ++ rest)
  end.

Definition refined_search (st : rag) (refl : reflection)
    (previous_results : list passage) : result (rag * list passage) :=
  let previous_texts := map text previous_results in
  match search_queries refl with
  | [] => Ok (st, [])
  | qs =>
      '(new_queries, h) ← filter_new (query_history st) qs;
      let st := mk_rag h (events st) in
      match new_queries with
      | [] => Ok (st, [])
      | _ => search_each st previous_texts new_queries
      end
  end.

(** [for iteration in range(1, self.max_iterations + 1)], with [fuel]
    the number of iterations left. Returns the state, the current answer,
    [all_search_results] and [iteration_history]. *)
Fixpoint iterate (fuel : nat) (iteration : Z) (st : rag) (user_query : pystr)
    (current_answer : pystr) (all_search_results : list passage)
    (iteration_history : list iteration_info)
    : result (rag * pystr * list passage * list iteration_info) :=
  match fuel with
  | O => Ok (st, current_answer, all_search_results, iteration_history)
  | S fuel' =>
      let '(st, refl) :=
        reflect_on_answer st user_query current_answer all_search_results in
      let iteration_history := iteration_history ++
        [mk_iteration_info iteration current_answer refl
           (length all_search_results)] in
      if is_complete refl then
        Ok (st, current_answer, all_search_results, iteration_history)
      else
        '(st, new_results) ← refined_search st refl all_search_results;
        match new_results with
        | [] => Ok (st, current_answer, all_search_results, iteration_history)
        | _ =>
            let all_search_results := all_search_results ++ new_results in
            let '(st, current_answer) :=
              generate_improved_answer st user_query all_search_results iteration in
            iterate fuel' (iteration + 1) st user_query current_answer
              all_search_results iteration_history
        end
  end.

Definition query (max_iterations : Z) (st : rag) (user_query : pystr)
    : result (rag * final_result) :=
  let st := mk_rag [] (events st) in
  '(st, search_results) ← initial_search st user_query;
  let '(st, current_answer) :=
    generate_initial_answer st user_query search_results in
  '(st, current_answer, all_search_results, iteration_history) ←
    iterate (Z.to_nat max_iterations) 1 st user_query current_answer
      search_results [];
  Ok (st, mk_final_result user_query current_answer
            (length all_search_results) (length iteration_history)
            iteration_history all_search_results).

End Agentic.

(* ------------------------------------------------------------------ *)
(** ** [src/tests/recursive_text_splitter.py] *)

Record RecursiveTextSplitter := mk_splitter {
  chunk_size : Z;
  separators : list pystr }.

(** ["\n\n", "\n", "。", "！", "？", ";", ":", "，", ",", " ", ""] *)
Definition default_separators : list pystr :=
  [[10; 10]; [10]; [12290]; [65281]; [65311]; [59]; [58]; [65292]; [44]; [32]; []].

(** [RecursiveTextSplitter(chunk_size, separators)] *)
Definition new_splitter (chunk_size : Z) (separators : option (list pystr))
    : RecursiveTextSplitter :=
  mk_splitter chunk_size
    (match separators with None => default_separators | Some seps => seps end).

(** [text.split(sep)] for a non-empty [sep]: the pieces between the
    non-overlapping occurrences of [sep], found left to right; [cur] is
    the current piece, reversed. Every step consumes a character, so
    [length text] is enough fuel. *)
Fixpoint split_go (sep : pystr) (fuel : nat) (text cur : pystr) : list pystr :=
  match fuel with
  | O => [rev cur ++ text]
  | S fuel' =>
      match text with
      | [] => [rev cur]
      | c :: text' =>
          if startswith text sep
          then rev cur :: split_go sep fuel' (drop (length sep) text) []
          else split_go sep fuel' text' (c :: cur)
      end
  end.

Definition py_split (text sep : pystr) : list pystr :=
  split_go sep (length text) text [].

(** [_split_by_separator]: the separator is kept at the end of every
    piece but the last. *)
Definition split_by_separator (text sep : pystr) : list pystr :=
  match reverse (py_split text sep) with
  | [] => []
  | last :: rest => map (fun piece => piece ++ sep) (reverse rest) ++ [last]
  end.

(** [_force_split]: slices [text[i:i + chunk_size]] for [i] in
    [range(0, len(text), chunk_size)], stripped, the blank ones dropped.
    This covers [chunk_size >= 1]; Python raises [ValueError] for
    [chunk_size = 0] and yields no slice for a negative one, where the
    model also returns no chunk. *)
Fixpoint force_go (size fuel : nat) (text : pystr) : list pystr :=
  match fuel, text with
  | O, _ | _, [] => []
  | S fuel', _ =>
      let chunk := take size text in
      (if bool_decide (strip chunk = []) then [] else [strip chunk]) ++
      force_go size fuel' (drop size text)
  end.

Definition force_split (chunk_size : Z) (text : pystr) : list pystr :=
  force_go (Z.to_nat chunk_size) (length text) text.

(** [_add_split_to_chunk]: returns the chunk list and the new current
    chunk. *)
Definition add_split_to_chunk (chunk_size : Z) (chunks : list pystr)
    (current_chunk split : pystr) : list pystr * pystr :=
  if len (current_chunk ++ split) <=? chunk_size then (chunks, current_chunk ++ split)
  else ((if bool_decide (current_chunk = []) then chunks
         else chunks ++ [strip current_chunk]), split).

(** [_handle_oversized_split], with [sub] the recursive call on the
    remaining separators. *)
Definition handle_oversized_split (sub : pystr -> list pystr) (chunks : list pystr)
    (current_chunk split : pystr) : list pystr :=
  (if bool_decide (current_chunk = []) then chunks
   else chunks ++ [strip current_chunk]) ++ sub split.

(** One turn of the loop of [_process_splits] on [(chunks, current_chunk)]. *)
Definition process_step (chunk_size : Z) (sub : pystr -> list pystr)
    (acc : list pystr * pystr) (split : pystr) : list pystr * pystr :=
  let '(chunks, current_chunk) := acc in
  let split := strip split in
  if bool_decide (split = []) then (chunks, current_chunk)
  else if chunk_size <? len split
  then (handle_oversized_split sub chunks current_chunk split, [])
  else add_split_to_chunk chunk_size chunks current_chunk split.

Definition process_splits (chunk_size : Z) (sub : pystr -> list pystr)
    (splits : list pystr) : list pystr :=
  let '(chunks, current_chunk) :=
    fold_left (process_step chunk_size sub) splits ([], []) in
  let chunks := if bool_decide (current_chunk = []) then chunks
                else chunks ++ [strip current_chunk] in
  filter (fun chunk => chunk <> []) chunks.

Fixpoint recursive_split (chunk_size : Z) (separators : list pystr) (text : pystr)
    : list pystr :=
  match separators with
  | [] => force_split chunk_size text
  | sep :: rest =>
      if bool_decide (sep = []) then force_split chunk_size text
      else process_splits chunk_size (recursive_split chunk_size rest)
             (split_by_separator text sep)
  end.

Definition split_text (sp : RecursiveTextSplitter) (text : pystr) : list pystr :=
  if bool_decide (text = []) || bool_decide (strip text = []) then []
  else if len text <=? chunk_size sp then [strip text]
  else recursive_split (chunk_size sp) (separators sp) text.

(* ------------------------------------------------------------------ *)
(** ** [src/get_text_embedding.py]

    The disk cache is a finite map from cache keys to embeddings.  The
    key function ([hashlib.md5(...).hexdigest()]) and the embeddings
    endpoint ([client.embeddings.create], one call per batch, giving the
    [.embedding] of each item of [response.data]) are parameters. *)

Section Embedding.

Context {vec : Type}.
Variable get_cache_key : pystr -> pystr.
Variable embeddings_create : list pystr -> list vec.
(** The culling that [diskcache]'s [Cache.set] runs after storing an
    entry: once the cache's volume reaches its [size_limit] (by default
    [2 ** 30] bytes) it deletes the least recently stored entries.  The
    volume is not part of the model, so the culling is a parameter. *)
Variable cull : gmap pystr vec -> gmap pystr vec.

(** The batches [texts[i:i + batch_size]] for [i] in
    [range(0, len(texts), batch_size)]. *)
Fixpoint batches_go (size fuel : nat) (texts : list pystr) : list (list pystr) :=
  match fuel, texts with
  | O, _ | _, [] => []
  | S fuel', _ => take size texts :: batches_go size fuel' (drop size texts)
  end.

(** [batch_get_embeddings]: the embeddings of the batches, concatenated
    in batch order ([all_embeddings.extend]).  Its only call site uses the
    default [batch_size = 64]. *)
Definition batch_get_embeddings (texts : list pystr) (batch_size : nat) : list vec :=
  concat (map embeddings_create (batches_go batch_size (length texts) texts)).

(** The loop of [get_cached_embeddings] from index [idx] on: the cache
    hits [(idx, cached_embedding)] and the misses [(idx, text, cache_key)],
    each in input order. *)
Fixpoint classify (cache : gmap pystr vec) (idx : nat) (texts : list pystr)
    : list (nat * vec) * list (nat * pystr * pystr) :=
  match texts with
  | [] => ([], [])
  | text :: rest =>
      let cache_key := get_cache_key text in
      let '(cached_results, uncached_items) := classify cache (S idx) rest in
      match cache !! cache_key with
      | Some cached_embedding => ((idx, cached_embedding) :: cached_results, uncached_items)
      | None => (cached_results, (idx, text, cache_key) :: uncached_items)
      end
  end.

Definition get_cached_embeddings (cache : gmap pystr vec) (texts : list pystr)
    : list (nat * vec) * list (nat * pystr) * list pystr :=
  let '(cached_results, uncached_items) := classify cache 0 texts in
  (cached_results,
   map (fun '(idx, text, _) => (idx, text)) uncached_items,
   map (fun '(_, _, key) => key) uncached_items).

(** The body of the loop over [zip(uncached_indices, new_embeddings,
    cache_keys)]: [cache.set] (store, then cull) and
    [result_embeddings.append]. *)
Definition record_new (acc : gmap pystr vec * list (nat * vec))
    (item : nat * vec * pystr) : gmap pystr vec * list (nat * vec) :=
  let '(c, result_embeddings) := acc in
  let '(idx, embedding, cache_key) := item in
  (cull (<[cache_key := embedding]> c), result_embeddings ++ [(idx, embedding)]).

(** The order of [sorted(result_embeddings, key=lambda x: x[0])]. *)
Definition idx_le (x y : nat * vec) : Prop := (x.1 <= y.1)%nat.

#[global] Instance idx_le_dec : RelDecision idx_le :=
  fun x y => decide (x.1 <= y.1)%nat.

(** [get_text_embedding] on a cache state: the new cache state and the
    returned embeddings. *)
Definition get_text_embedding (cache : gmap pystr vec) (texts : list pystr)
    : gmap pystr vec * list vec :=
  let '(cached_results, uncached_items, cache_keys) := get_cached_embeddings cache texts in
  let '(cache', result_embeddings) :=
    match uncached_items with
    | [] => (cache, cached_results)
    | _ :: _ =>
        let uncached_texts := map snd uncached_items in
        let uncached_indices := map fst uncached_items in
        let new_embeddings := batch_get_embeddings uncached_texts 64%nat in
        fold_left record_new (zip (zip uncached_indices new_embeddings) cache_keys)
          (cache, cached_results)
    end in
  (cache', map snd (merge_sort idx_le result_embeddings)).

End Embedding.

(* ------------------------------------------------------------------ *)
(** ** Python's [sep.join(pieces)] *)

Fixpoint py_join (sep : pystr) (pieces : list pystr) : pystr :=
  match pieces with
  | [] => []
  | [p] => p
  | p :: pieces' => p ++ sep ++ py_join sep pieces'
  end.

(* ------------------------------------------------------------------ *)
(** ** [src/knowledge_database.py] and [AgenticRAG.setup_knowledge_base]

    A Python dict is an association list in insertion order, its keys
    distinct.  The values stored in a Milvus item are decoded JSON-like
    values or an embedding. *)

Inductive field (vec : Type) :=
| FJson (j : json)
| FVec (v : vec).
Arguments FJson {vec} j.
Arguments FVec {vec} v.

Definition dict (vec : Type) := list (pystr * field vec).

(** [d[k]] / [d.get(k)] *)
Fixpoint dict_get {vec} (k : pystr) (d : dict vec) : option (field vec) :=
  match d with
  | [] => None
  | (k', v) :: d' => if bool_decide (k' = k) then Some v else dict_get k d'
  end.

(** [d[k] = v]: an existing key keeps its place, a new one goes last. *)
Fixpoint dict_set {vec} (k : pystr) (v : field vec) (d : dict vec) : dict vec :=
  match d with
  | [] => [(k, v)]
  | (k', v') :: d' => if bool_decide (k' = k) then (k', v) :: d' else (k', v') :: dict_set k v d'
  end.

(** [d.update(other)] *)
Definition dict_update {vec} (d other : dict vec) : dict vec :=
  fold_left (fun d '(k, v) => dict_set k v d) other d.

(** [metadata and i < len(metadata)] followed by [metadata[i]]. *)
Definition metadata_at {A} (metadata : option (list A)) (i : nat) : option A :=
  match metadata with
  | Some m => m !! i
  | None => None
  end.

Section KnowledgeBase.

Context {vec : Type}.
Variable get_cache_key : pystr -> pystr.
Variable embeddings_create : list pystr -> list vec.
Variable cull : gmap pystr vec -> gmap pystr vec.

(** The item of [VectorDatabase.insert_documents] for the [i]-th document. *)
Definition build_item (metadata : option (list (dict vec))) (i : nat) (doc : pystr)
    (embedding : vec) : dict vec :=
  let item := [(lit "text", FJson (JStr doc)); (lit "vector", FVec embedding)] in
  match metadata_at metadata i with
  | Some md => dict_update item md
  | None => item
  end.

(** The loop over [enumerate(zip(docs, embeddings))] from index [i] on. *)
Fixpoint build_data (metadata : option (list (dict vec))) (i : nat)
    (pairs : list (pystr * vec)) : list (dict vec) :=
  match pairs with
  | [] => []
  | (doc, embedding) :: pairs' =>
      build_item metadata i doc embedding :: build_data metadata (S i) pairs'
  end.

(** [insert_documents] on an embedding-cache state: the new cache state,
    the items handed to [client.insert] and the returned [len(data)]. *)
Definition insert_documents (cache : gmap pystr vec) (docs : list pystr)
    (metadata : option (list (dict vec))) : gmap pystr vec * list (dict vec) * nat :=
  let '(cache', embeddings) := get_text_embedding get_cache_key embeddings_create cull cache docs in
  let data := build_data metadata 0 (zip docs embeddings) in
  (cache', data, length data).

(** [{"doc_id": i, "chunk_text": chunk}], updated with [metadata[i]]. *)
Definition chunk_metadata (metadata : option (list (dict vec))) (i : nat) (chunk : pystr)
    : dict vec :=
  let cm := [(lit "doc_id", FJson (JNum (Z.of_nat i))); (lit "chunk_text", FJson (JStr chunk))] in
  match metadata_at metadata i with
  | Some md => dict_update cm md
  | None => cm
  end.

(** One turn of the loop over [enumerate(documents)], with the splitter
    [RecursiveTextSplitter(chunk_size=500)]. *)
Definition setup_step (metadata : option (list (dict vec)))
    (acc : list pystr * list (dict vec)) (idoc : nat * pystr) : list pystr * list (dict vec) :=
  let '(all_chunks, all_metadata) := acc in
  let '(i, doc) := idoc in
  let chunks := split_text (new_splitter 500 None) doc in
  (all_chunks ++ chunks, all_metadata ++ map (chunk_metadata metadata i) chunks).

(** [setup_knowledge_base]: the collection is created anew, so its
    content is the data of the one [insert_documents] call. *)
Definition setup_knowledge_base (cache : gmap pystr vec) (documents : list pystr)
    (metadata : option (list (dict vec))) : gmap pystr vec * list (dict vec) * nat :=
  let '(all_chunks, all_metadata) :=
    fold_left (setup_step metadata) (zip (seq 0 (length documents)) documents) ([], []) in
  insert_documents cache all_chunks (Some all_metadata).

End KnowledgeBase.

(** A passage comes from one of the searches logged from position [n0]
    of [evs] on: the [n]-th call, [Search (JStr s) l] with [n0 <= n], for
    which the retriever answered [retrieve n s l] containing the
    passage. *)
Definition searched_in (retrieve : nat -> pystr -> Z -> list passage) (n0 : nat)
    (evs : list event) (p : passage) : Prop :=
  exists n s l, (n0 <= n)%nat /\ evs !! n = Some (Search (JStr s) l) /\ p ∈ retrieve n s l.

(* ------------------------------------------------------------------ *)
(** ** Collaborators for concrete runs *)

(** A retriever that returns passages with the given texts for every
    query. *)
Definition const_retrieve (texts : list pystr) (n : nat) (q : pystr) (limit : Z)
    : list passage :=
  map (fun t => mk_passage t 0 0) texts.

(** A retriever that returns fresh passages on every call: five for the
    initial search, two for a refinement search. *)
Definition fresh_retrieve (n : nat) (q : pystr) (limit : Z) : list passage :=
  map (fun k => mk_passage [Z.of_nat n; k] 0 0)
    (if limit =? 5 then [0; 1; 2; 3; 4] else [0; 1]).

(** A generator whose completion is the number of the call. *)
Definition counter_chat (n : nat) (r : chat_req) : pystr := [Z.of_nat n].

(** A reflection payload [{"is_complete": b, "search_queries": qs}]. *)
Definition verdict (complete : bool) (qs : list pystr) : json :=
  JObj [(lit "is_complete", JBool complete); (lit "search_queries", JArr (map JStr qs))].

(** A [json.loads] that decodes every text to the same value. *)
Definition const_loads (v : json) (t : pystr) : option json := Some v.

(** A [json.loads] that decodes every text [t] to an incomplete verdict
    proposing [t] itself as the next query. *)
Definition echo_loads (t : pystr) : option json := Some (verdict false [t]).

(** A [json.loads] for which every text is malformed. *)
Definition failing_loads (t : pystr) : option json := None.

(* ================================================================== *)
(** * Properties of the session *)

Lemma bind_Ok {A B} (m : result A) (f : A -> result B) b :
  (m ≫= f) = Ok b -> exists a, m = Ok a /\ f a = Ok b.
Proof. destruct m; cbn; [eauto | discriminate]. Qed.

Tactic Notation "inv_bind" hyp(H) "as" simple_intropattern(p) ident(Hm) :=
  apply bind_Ok in H as (p & Hm & H); cbv beta iota in H.

Section SessionFacts.

Variable retrieve : nat -> pystr -> Z -> list passage.
Variable chat : nat -> chat_req -> pystr.
Variable json_loads : pystr -> option json.


Lemma issued_app l1 l2 : issued (l1 ++ l2) = issued l1 ++ issued l2.
Proof. unfold issued. induction l1 as [|[] ?]; cbn; f_equal; auto. Qed.

Lemma issued_chat r : issued [Chat r] = [].
Proof. reflexivity. Qed.

Lemma issued_search q l : issued [Search q l] = [q].
Proof. reflexivity. Qed.

Lemma py_eq_refl v : hashable v = true -> py_eq v v = true.
Proof.
  destruct v; cbn; intros H; try discriminate; auto.
  - apply Bool.eqb_reflx.
  - apply Z.eqb_refl.
  - by apply bool_decide_eq_true.
Qed.

Lemma py_mem_elem v l : hashable v = true -> v ∈ l -> py_mem v l = true.
Proof.
  intros Hh Hin. unfold py_mem. apply existsb_exists.
  exists v. split; [by apply list_elem_of_In | by apply py_eq_refl].
Qed.

Lemma filter_new_spec hist qs nq h :
  filter_new hist qs = Ok (nq, h) ->
  h = hist ++ nq /\ NoDup nq /\
  (forall q, q ∈ nq -> (q ∉ hist) /\ truthy q = true /\ hashable q = true).
Proof.
  revert hist nq h. induction qs as [|q qs IH]; intros hist nq h Hf; cbn in Hf.
  - injection Hf as <- <-. rewrite app_nil_r. split; [done|].
    split; [constructor|]. intros ? Hx. inversion Hx.
  - destruct (truthy q) eqn:Ht; [|eauto].
    destruct (hashable q) eqn:Hh; [|discriminate].
    destruct (py_mem q hist) eqn:Hm; [eauto|].
    inv_bind Hf as [nq' h'] Hm0. injection Hf as <- <-.
    destruct (IH _ _ _ Hm0) as (-> & Hnd & Hall).
    assert (q ∉ hist) as Hq.
    { intros Hin. rewrite (py_mem_elem q hist Hh Hin) in Hm. discriminate. }
    split; [by rewrite <- app_assoc|]. split.
    + constructor; [|done]. intros Hin.
      destruct (Hall q Hin) as [Hn _]. apply Hn. set_solver.
    + intros x Hx. apply elem_of_cons in Hx as [->|Hx]; [done|].
      destruct (Hall x Hx) as (Hn & ? & ?). split; [set_solver|done].
Qed.

Lemma db_search_spec st q l st' rs :
  db_search retrieve st q l = Ok (st', rs) ->
  query_history st' = query_history st /\ events st' = events st ++ [Search q l].
Proof. destruct q; cbn; intros H; try discriminate. by injection H as <- _. Qed.

Lemma search_each_spec st seen qs st' res :
  search_each retrieve st seen qs = Ok (st', res) ->
  query_history st' = query_history st /\
  exists evs, events st' = events st ++ evs /\ issued evs = qs.
Proof.
  revert st seen res. induction qs as [|q qs IH]; intros st seen res H; cbn in H.
  - injection H as <- _. split; [done|]. exists []. by rewrite app_nil_r.
  - inv_bind H as [st1 rs] Hm. destruct (keep_unseen seen rs) as [u seen1].
    inv_bind H as [st2 rest] Hm0.
    injection H as <- _.
    destruct (db_search_spec _ _ _ _ _ Hm) as [Hq1 He1].
    destruct (IH _ _ _ Hm0) as [Hq2 (evs & He2 & Hi2)].
    split; [congruence|]. exists (Search q 3 :: evs).
    rewrite He2, He1, <- app_assoc. split; [done|].
    change (Search q 3 :: evs) with ([Search q 3] ++ evs).
    by rewrite issued_app, Hi2.
Qed.

Lemma refined_search_spec st refl prev st' new :
  refined_search retrieve st refl prev = Ok (st', new) ->
  exists nq evs,
    filter_new (query_history st) (search_queries refl) = Ok (nq, query_history st') /\
    events st' = events st ++ evs /\ issued evs = nq.
Proof.
  unfold refined_search. destruct (search_queries refl) as [|q0 qs] eqn:Hq.
  - intros H. injection H as <- _. exists [], []. by rewrite app_nil_r.
  - intros H. inv_bind H as [[|q1 nq] h] Hm.
    + injection H as <- _. exists [], []. by rewrite app_nil_r.
    + destruct (search_each_spec _ _ _ _ _ H) as [Hh (evs & He & Hi)].
      cbn in Hh, He. exists (q1 :: nq), evs. by rewrite Hh.
Qed.

Lemma iterate_ledger fuel it st q ans all hist st' ans' all' hist' st0 evs :
  iterate retrieve chat json_loads fuel it st q ans all hist = Ok (st', ans', all', hist') ->
  events st = events st0 ++ evs -> NoDup (issued evs) ->
  (forall x, x ∈ issued evs -> x ∈ query_history st) ->
  exists evs', events st' = events st0 ++ evs' /\ NoDup (issued evs') /\
    (forall x, x ∈ issued evs' -> x ∈ query_history st').
Proof.
  revert it st ans all hist evs. induction fuel as [|fuel IH]; intros it st ans all hist evs H He Hnd Hin; cbn in H.
  - injection H as <- <- <- <-. eauto.
  - set (st1 := log st (Chat (Reflect q ans (length all)))) in *.
    assert (events st1 = events st0 ++ (evs ++ [Chat (Reflect q ans (length all))])) as He1.
    { cbn. by rewrite He, app_assoc. }
    assert (issued (evs ++ [Chat (Reflect q ans (length all))]) = issued evs) as Hi1.
    { by rewrite issued_app, issued_chat, app_nil_r. }
    destruct (is_complete _).
    + injection H as <- <- <- <-. eexists; split; [exact He1|]. rewrite Hi1. eauto.
    + inv_bind H as [st2 new] Hm.
      destruct (refined_search_spec _ _ _ _ _ Hm) as (nq & evs2 & Hf & He2 & Hi2).
      apply filter_new_spec in Hf as (Hh & Hndq & Hq).
      assert (events st2 = events st0 ++ ((evs ++ [Chat (Reflect q ans (length all))]) ++ evs2)) as Ha.
      { rewrite He2, He1. by rewrite !app_assoc. }
      assert (NoDup (issued ((evs ++ [Chat (Reflect q ans (length all))]) ++ evs2))) as Hnda.
      { rewrite issued_app, Hi1, Hi2. apply NoDup_app. split; [done|]. split; [|done].
        intros x Hx Hx2. destruct (Hq x Hx2) as [Hn _]. apply Hn. by apply Hin. }
      assert (forall x, x ∈ issued ((evs ++ [Chat (Reflect q ans (length all))]) ++ evs2) -> x ∈ query_history st2) as Hina.
      { rewrite issued_app, Hi1, Hi2, Hh. cbn. intros x Hx. apply elem_of_app in Hx as [Hx|Hx]; apply elem_of_app; [left; by apply Hin|by right]. }
      destruct new as [|p ps].
      * injection H as <- <- <- <-. eauto.
      * set (all1 := all ++ p :: ps) in *.
        eapply (IH _ _ _ _ _ _ H).
        -- cbn. rewrite Ha, <- app_assoc. reflexivity.
        -- by rewrite issued_app, issued_chat, app_nil_r.
        -- rewrite issued_app, issued_chat, app_nil_r. exact Hina.
Qed.

Lemma keep_unseen_spec seen rs u seen' :
  keep_unseen seen rs = (u, seen') ->
  seen' = seen ++ map text u /\ (NoDup seen -> NoDup seen').
Proof.
  revert seen u seen'. induction rs as [|r rs IH]; intros seen u seen' H; cbn in H.
  - injection H as <- <-. by rewrite app_nil_r.
  - case_bool_decide as Hr; [eauto|].
    destruct (keep_unseen (seen ++ [text r]) rs) as [u1 s1] eqn:Hk.
    injection H as <- <-. destruct (IH _ _ _ Hk) as [-> Hnd].
    split; [by rewrite <- app_assoc|]. intros Hs. apply Hnd.
    apply NoDup_app. split; [done|]. split; [|apply NoDup_singleton].
    intros x Hx Hx'. apply list_elem_of_singleton in Hx'. subst. done.
Qed.

Lemma search_each_nodup st seen qs st' res :
  search_each retrieve st seen qs = Ok (st', res) ->
  NoDup seen -> NoDup (seen ++ map text res).
Proof.
  revert st st' seen res.
  induction qs as [|q qs IH]; intros st st' seen res H Hs; cbn in H.
  - injection H as _ <-. by rewrite app_nil_r.
  - inv_bind H as [st1 rs] Hm.
    destruct (keep_unseen seen rs) as [u seen1] eqn:Hk.
    inv_bind H as [st2 rest] Hm0. injection H as _ <-.
    destruct (keep_unseen_spec _ _ _ _ Hk) as [-> Hnd].
    rewrite map_app, app_assoc. eapply IH; [exact Hm0 | by apply Hnd].
Qed.

Lemma refined_search_nodup st refl prev st' new :
  refined_search retrieve st refl prev = Ok (st', new) ->
  NoDup (map text prev) -> NoDup (map text (prev ++ new)).
Proof.
  unfold refined_search. intros H Hp. rewrite map_app.
  destruct (search_queries refl) as [|q0 qs].
  - injection H as _ <-. by rewrite app_nil_r.
  - inv_bind H as [[|q1 nq] h] Hm.
    + injection H as _ <-. by rewrite app_nil_r.
    + eapply search_each_nodup; eauto.
Qed.

Lemma iterate_nodup fuel it st q ans all hist st' ans' all' hist' :
  iterate retrieve chat json_loads fuel it st q ans all hist = Ok (st', ans', all', hist') ->
  NoDup (map text all) -> NoDup (map text all').
Proof.
  revert it st ans all hist. induction fuel as [|fuel IH]; intros it st ans all hist H Hnd; cbn in H.
  - by injection H as _ _ <- _.
  - destruct (is_complete _).
    + by injection H as _ _ <- _.
    + inv_bind H as [st2 new] Hm. destruct new as [|p ps].
      * by injection H as _ _ <- _.
      * eapply IH; [exact H|]. eapply refined_search_nodup; eauto.
Qed.

Lemma map_text_elem (l : list passage) x :
  x ∈ map text l -> exists p, p ∈ l /\ x = text p.
Proof.
  induction l as [|a l IH]; cbn; intros H; [by apply elem_of_nil in H|].
  apply elem_of_cons in H as [->|H].
  - exists a. split; [by apply elem_of_cons; left | done].
  - destruct (IH H) as (p & Hp & ->). exists p. split; [by apply elem_of_cons; right | done].
Qed.

Lemma keep_unseen_fresh seen rs u seen' :
  keep_unseen seen rs = (u, seen') ->
  NoDup (map text u) /\ forall p, p ∈ u -> text p ∉ seen.
Proof.
  revert seen u seen'. induction rs as [|r rs IH]; intros seen u seen' H; cbn in H.
  - injection H as <- _. split; [constructor | intros p Hp; by apply elem_of_nil in Hp].
  - case_bool_decide as Hr; [eauto|].
    destruct (keep_unseen (seen ++ [text r]) rs) as [u1 s1] eqn:Hk.
    injection H as <- _. destruct (IH _ _ _ Hk) as [Hnd Hf].
    split.
    + cbn. apply NoDup_cons. split; [|done]. intros Hin.
      apply map_text_elem in Hin as (p & Hp & Ht). apply (Hf p Hp).
      rewrite <- Ht. apply elem_of_app; right. by apply list_elem_of_singleton.
    + intros p Hp. apply elem_of_cons in Hp as [->|Hp]; [done|].
      intros Hin. apply (Hf p Hp). by apply elem_of_app; left.
Qed.

Lemma search_each_fresh st seen qs st' res :
  search_each retrieve st seen qs = Ok (st', res) ->
  NoDup (map text res) /\ forall p, p ∈ res -> text p ∉ seen.
Proof.
  revert st st' seen res.
  induction qs as [|q qs IH]; intros st st' seen res H; cbn in H.
  - injection H as _ <-. split; [constructor | intros p Hp; by apply elem_of_nil in Hp].
  - inv_bind H as [st1 rs] Hm.
    destruct (keep_unseen seen rs) as [u seen1] eqn:Hk.
    inv_bind H as [st2 rest] Hm0. injection H as _ <-.
    destruct (keep_unseen_spec _ _ _ _ Hk) as [-> _].
    destruct (keep_unseen_fresh _ _ _ _ Hk) as [Hu Hfu].
    destruct (IH _ _ _ _ Hm0) as [Hr Hfr].
    split.
    + rewrite map_app. apply NoDup_app. split; [done|]. split; [|done].
      intros x Hx Hx'. apply map_text_elem in Hx' as (p & Hp & ->).
      apply (Hfr p Hp). by apply elem_of_app; right.
    + intros p Hp. apply elem_of_app in Hp as [Hp|Hp]; [by apply Hfu|].
      intros Hin. apply (Hfr p Hp). by apply elem_of_app; left.
Qed.

Lemma refined_search_fresh st refl prev st' new :
  refined_search retrieve st refl prev = Ok (st', new) ->
  NoDup (map text new) /\ forall p, p ∈ new -> text p ∉ map text prev.
Proof.
  unfold refined_search. intros H.
  destruct (search_queries refl) as [|q0 qs].
  - injection H as _ <-. split; [constructor | intros p Hp; by apply elem_of_nil in Hp].
  - inv_bind H as [[|q1 nq] h] Hm.
    + injection H as _ <-. split; [constructor | intros p Hp; by apply elem_of_nil in Hp].
    + eapply search_each_fresh; eauto.
Qed.

Lemma iterate_fresh fuel it st q ans all hist st' ans' all' hist' :
  iterate retrieve chat json_loads fuel it st q ans all hist = Ok (st', ans', all', hist') ->
  exists new, all' = all ++ new /\ NoDup (map text new) /\
    forall p, p ∈ new -> text p ∉ map text all.
Proof.
  revert it st ans all hist. induction fuel as [|fuel IH]; intros it st ans all hist H; cbn in H.
  - injection H as _ _ <- _. exists []. rewrite app_nil_r. split; [done|].
    split; [constructor | intros p Hp; by apply elem_of_nil in Hp].
  - destruct (is_complete _).
    + injection H as _ _ <- _. exists []. rewrite app_nil_r. split; [done|].
      split; [constructor | intros p Hp; by apply elem_of_nil in Hp].
    + inv_bind H as [st2 new] Hm. destruct new as [|p0 ps].
      * injection H as _ _ <- _. exists []. rewrite app_nil_r. split; [done|].
        split; [constructor | intros p Hp; by apply elem_of_nil in Hp].
      * destruct (refined_search_fresh _ _ _ _ _ Hm) as [Hn1 Hf1].
        destruct (IH _ _ _ _ _ H) as (rest & -> & Hr & Hfr).
        exists ((p0 :: ps) ++ rest). split; [by rewrite app_assoc|]. split.
        -- rewrite map_app. apply NoDup_app. split; [done|]. split; [|done].
           intros x Hx Hx'. apply map_text_elem in Hx' as (p & Hp & ->).
           apply (Hfr p Hp). rewrite map_app. by apply elem_of_app; right.
        -- intros p Hp. apply elem_of_app in Hp as [Hp|Hp]; [by apply Hf1|].
           intros Hin. apply (Hfr p Hp). rewrite map_app. by apply elem_of_app; left.
Qed.

Lemma iterate_history fuel it st q ans all hist st' ans' all' hist' :
  iterate retrieve chat json_loads fuel it st q ans all hist = Ok (st', ans', all', hist') ->
  exists recs, hist' = hist ++ recs /\ (length recs <= fuel)%nat.
Proof.
  revert it st ans all hist. induction fuel as [|fuel IH]; intros it st ans all hist H; cbn in H.
  - injection H as _ _ _ <-. exists []. split; [by rewrite app_nil_r | cbn; lia].
  - destruct (is_complete _).
    + injection H as _ _ _ <-. eexists; split; [reflexivity|]. cbn. lia.
    + inv_bind H as [st2 new] Hm. destruct new as [|p ps].
      * injection H as _ _ _ <-. eexists; split; [reflexivity|]. cbn. lia.
      * destruct (IH _ _ _ _ _ H) as (recs & -> & Hl).
        eexists; split; [by rewrite <- app_assoc|]. cbn. lia.
Qed.

Lemma query_eq max st0 q :
  query retrieve chat json_loads max st0 q =
  (let r0 := retrieve (length (events st0)) q 5 in
   let e0 := InitialAnswer q r0 in
   iterate retrieve chat json_loads (Z.to_nat max) 1
     (mk_rag [JStr q] (events st0 ++ [Search (JStr q) 5; Chat e0]))
     q (chat (S (length (events st0))) e0) r0 []
   ≫= (fun '(st, ans, all, hist) =>
         Ok (st, mk_final_result q ans (length all) (length hist) hist all))).
Proof.
  unfold query. cbn. unfold log. cbn. rewrite length_app, Nat.add_1_r, <- app_assoc. reflexivity.
Qed.

Lemma py_mem_str s l : py_mem (JStr s) l = true -> JStr s ∈ l.
Proof.
  unfold py_mem. intros (v & Hin & Heq)%existsb_exists.
  apply list_elem_of_In. destruct v; cbn in Heq; try discriminate.
  apply bool_decide_eq_true in Heq. by subst.
Qed.

Lemma filter_new_fresh_strings hist qs :
  (forall x, x ∈ qs -> exists s, x = JStr s /\ s <> []) ->
  NoDup qs -> (forall x, x ∈ qs -> x ∉ hist) ->
  filter_new hist qs = Ok (qs, hist ++ qs).
Proof.
  revert hist. induction qs as [|x qs IH]; intros hist Hs Hnd Hh; cbn.
  - by rewrite app_nil_r.
  - destruct (Hs x ltac:(by left)) as (s & -> & Hne).
    cbn. rewrite bool_decide_false by done. cbn.
    destruct (py_mem (JStr s) hist) eqn:Hm.
    { apply py_mem_str in Hm. exfalso. by apply (Hh (JStr s)); [left|]. }
    apply NoDup_cons in Hnd as [Hx Hnd].
    rewrite IH; cbn.
    + by rewrite <- app_assoc.
    + intros y Hy. apply Hs. by right.
    + done.
    + intros y Hy Hy'. apply elem_of_app in Hy' as [Hy'|Hy'].
      * by apply (Hh y); [right|].
      * apply list_elem_of_singleton in Hy'. subst. done.
Qed.

End SessionFacts.

(* ================================================================== *)
(** * The claims on the session *)

Section SessionClaims.

Variable retrieve : nat -> pystr -> Z -> list passage.
Variable chat : nat -> chat_req -> pystr.
Variable json_loads : pystr -> option json.

(** C1 (amended): [for iteration in range(1, max_iterations + 1)] runs
    [max(0, max_iterations)] times at most and appends one record per
    run, so a session's [iteration_history] has at most
    [max(0, max_iterations)] records. *)
Theorem session_history_bounded max st0 q st' fr :
  query retrieve chat json_loads max st0 q = Ok (st', fr) ->
  Z.of_nat (length (iteration_history fr)) <= Z.max 0 max.
Proof.
  rewrite query_eq. cbv zeta. intros H.
  inv_bind H as [[[st2 ans] all] hist] Hm. injection H as _ <-. cbn.
  apply iterate_history in Hm as (recs & -> & Hl). cbn. lia.
Qed.

(** C2: in a session the retriever never receives the same query twice;
    the first query sent is the question itself. *)
Theorem session_queries_distinct max st0 q st' fr :
  query retrieve chat json_loads max st0 q = Ok (st', fr) ->
  exists evs, events st' = events st0 ++ evs /\
    head (issued evs) = Some (JStr q) /\ NoDup (issued evs).
Proof.
  rewrite query_eq. cbv zeta. intros H.
  inv_bind H as [[[st2 ans] all] hist] Hm. injection H as <- _.
  pose proof Hm as Hm'.
  apply iterate_ledger with (st0 := st0)
    (evs := [Search (JStr q) 5;
             Chat (InitialAnswer q (retrieve (length (events st0)) q 5))])
    in Hm as (evs & He & Hnd & _);
    [| reflexivity | cbn; apply NoDup_singleton | cbn; set_solver].
  apply iterate_ledger with
    (st0 := mk_rag [JStr q] (events st0 ++
              [Search (JStr q) 5;
               Chat (InitialAnswer q (retrieve (length (events st0)) q 5))]))
    (evs := []) in Hm' as (evs2 & He2 & _ & _);
    [| by rewrite app_nil_r | constructor | intros ? Hx; inversion Hx].
  rewrite He2 in He. cbn in He. rewrite <- app_assoc in He.
  apply app_inv_head in He. subst evs.
  exists ([Search (JStr q) 5;
           Chat (InitialAnswer q (retrieve (length (events st0)) q 5))] ++ evs2).
  split; [rewrite He2; cbn; by rewrite <- app_assoc|]. split; [|done].
  by rewrite issued_app.
Qed.

(** C3 (amended): the refinement rounds never add a passage whose text
    is already among the accumulated ones, nor two passages with the same
    text (also across the queries of one round): the final
    [all_search_results] is the initial results followed by passages with
    pairwise distinct texts, none of which is the text of an initial
    result.  So if the passages of the initial search have pairwise
    distinct texts, the final [all_search_results] has pairwise distinct
    texts. *)
Theorem session_evidence_distinct max st0 q st' fr :
  query retrieve chat json_loads max st0 q = Ok (st', fr) ->
  exists added,
    all_search_results fr = retrieve (length (events st0)) q 5 ++ added /\
    NoDup (map text added) /\
    (forall p, p ∈ added -> text p ∉ map text (retrieve (length (events st0)) q 5)) /\
    (NoDup (map text (retrieve (length (events st0)) q 5)) ->
     NoDup (map text (all_search_results fr))).
Proof.
  rewrite query_eq. cbv zeta. intros H.
  inv_bind H as [[[st2 ans] all] hist] Hm. injection H as _ <-. cbn.
  pose proof Hm as Hm'.
  apply iterate_fresh in Hm as (added & -> & Hnd & Hf).
  exists added. split; [done|]. split; [done|]. split; [done|].
  intros Hr. eapply iterate_nodup; eauto.
Qed.

(** C4: when the reflection text does not decode to a dictionary with a
    boolean [is_complete], [reflect_on_answer] returns the default
    verdict ([is_complete = False], no queries), and the round then ends
    the loop normally: one record added, no search and no further
    completion after the reflection call. *)
Theorem malformed_reflection_ends_round fuel it st q ans all hist :
  (json_loads (clean_fences
     (chat (length (events st)) (Reflect q ans (length all)))) ≫= validate) = None ->
  parse_reflection json_loads
    (chat (length (events st)) (Reflect q ans (length all))) = default_reflection /\
  iterate retrieve chat json_loads (S fuel) it st q ans all hist =
    Ok (log st (Chat (Reflect q ans (length all))), ans, all,
        hist ++ [mk_iteration_info it ans default_reflection (length all)]).
Proof.
  intros H.
  assert (parse_reflection json_loads
    (chat (length (events st)) (Reflect q ans (length all))) = default_reflection)
    as Hp by (unfold parse_reflection; by rewrite H).
  split; [done|]. cbn [iterate reflect_on_answer chat_call].
  rewrite Hp. reflexivity.
Qed.

(** C5: when the first verdict of a session says the answer is complete,
    the history has exactly one record, the retriever was called only for
    the question, and the final answer is the initial answer. *)
Theorem first_verdict_complete_stops max st0 q st' fr rec :
  query retrieve chat json_loads max st0 q = Ok (st', fr) ->
  head (iteration_history fr) = Some rec ->
  is_complete (it_reflection rec) = true ->
  let n0 := length (events st0) in
  let r0 := retrieve n0 q 5 in
  let a0 := chat (S n0) (InitialAnswer q r0) in
  length (iteration_history fr) = 1%nat /\
  events st' = events st0 ++
    [Search (JStr q) 5; Chat (InitialAnswer q r0); Chat (Reflect q a0 (length r0))] /\
  final_answer fr = a0.
Proof.
  rewrite query_eq. cbv zeta. intros H Hh Hc.
  inv_bind H as [[[st2 ans] all] hist] Hm. injection H as <- <-. cbn in Hh |- *.
  destruct (Z.to_nat max) as [|fuel]; cbn in Hm.
  - injection Hm as _ _ _ <-. discriminate.
  - destruct (is_complete _) eqn:Ec.
    + injection Hm as <- <- <- <-. cbn. unfold log. cbn.
      by rewrite <- app_assoc.
    + inv_bind Hm as [st3 new] Hr. destruct new as [|p ps].
      * injection Hm as _ _ _ <-. cbn in Hh. injection Hh as <-. cbn in Hc. congruence.
      * apply iterate_history in Hm as (recs & -> & _).
        cbn in Hh. injection Hh as <-. cbn in Hc. congruence.
Qed.

(** C6: when the verdict asks to go on but the query filter keeps no
    proposal (each one is falsy or already in the history, or there is
    none), the loop ends in that round: after the reflection call there
    is no search and no completion, and the answer is unchanged. *)
Theorem exhausted_plan_ends_round fuel it st q ans all hist h :
  let refl := parse_reflection json_loads
                (chat (length (events st)) (Reflect q ans (length all))) in
  is_complete refl = false ->
  filter_new (query_history st) (search_queries refl) = Ok ([], h) ->
  iterate retrieve chat json_loads (S fuel) it st q ans all hist =
    Ok (mk_rag h (events st ++ [Chat (Reflect q ans (length all))]), ans, all,
        hist ++ [mk_iteration_info it ans refl (length all)]).
Proof.
  cbv zeta. intros Hc Hf. cbn [iterate reflect_on_answer chat_call].
  rewrite Hc. cbv beta iota. unfold refined_search. cbn [query_history log] in *.
  destruct (search_queries _) as [|q0 qs] eqn:Hq.
  - cbn in Hf. injection Hf as <-. reflexivity.
  - rewrite Hf. reflexivity.
Qed.

(** C7 (amended): a refinement round sends to the retriever exactly the
    queries the filter keeps, in order, one search each; the filter drops
    falsy proposals and those already in the history (also repeats within
    the list) and has no cap: proposals that are distinct non-empty
    strings not yet in the history are all sent. *)
Theorem refinement_issues_every_new_query st refl prev st' new :
  refined_search retrieve st refl prev = Ok (st', new) ->
  exists nq evs,
    filter_new (query_history st) (search_queries refl) = Ok (nq, query_history st') /\
    events st' = events st ++ evs /\ issued evs = nq /\
    ((forall x, x ∈ search_queries refl -> exists s, x = JStr s /\ s <> []) ->
     NoDup (search_queries refl) ->
     (forall x, x ∈ search_queries refl -> x ∉ query_history st) ->
     nq = search_queries refl).
Proof.
  intros H. destruct (refined_search_spec _ _ _ _ _ _ H) as (nq & evs & Hf & He & Hi).
  exists nq, evs. split; [done|]. split; [done|]. split; [done|].
  intros Hs Hnd Hh. rewrite filter_new_fresh_strings in Hf by done.
  by injection Hf as <-.
Qed.

(** C8: with [max_iterations <= 0] a session makes the initial search
    and the initial answer only, and returns an empty history with the
    initial answer as final answer. *)
Theorem degenerate_max_initial_only max st0 q :
  max <= 0 ->
  let n0 := length (events st0) in
  let r0 := retrieve n0 q 5 in
  let a0 := chat (S n0) (InitialAnswer q r0) in
  query retrieve chat json_loads max st0 q =
    Ok (mk_rag [JStr q] (events st0 ++ [Search (JStr q) 5; Chat (InitialAnswer q r0)]),
        mk_final_result q a0 (length r0) 0 [] r0).
Proof.
  intros Hm. cbv zeta. rewrite query_eq. cbv zeta.
  replace (Z.to_nat max) with 0%nat by lia. reflexivity.
Qed.

End SessionClaims.

(* ================================================================== *)
(** * Concrete sessions *)

(** Closes [l = r] by evaluating [l]; evars in [r] are filled in. *)
Ltac eval_eq :=
  match goal with
  | |- ?l = _ => let v := eval vm_compute in l in change l with v; reflexivity
  end.

(** Two rounds over fresh passages (scenario 1 of the spec). *)
Lemma session_history_bounded_witness :
  exists st fr,
    query fresh_retrieve counter_chat echo_loads 2 (mk_rag [] []) (lit "q") = Ok (st, fr) /\
    Z.of_nat (length (iteration_history fr)) <= Z.max 0 2.
Proof.
  eexists _, _. split; [eval_eq|].
  eapply (session_history_bounded fresh_retrieve counter_chat echo_loads 2
           (mk_rag [] []) (lit "q")).
  eval_eq.
Defined.

(** With [max_iterations = -1] the history is empty, and 0 > -1. *)
Lemma session_history_negative_max :
  exists st fr,
    query fresh_retrieve counter_chat echo_loads (-1) (mk_rag [] []) (lit "q") = Ok (st, fr) /\
    ~ (Z.of_nat (length (iteration_history fr)) <= -1).
Proof. eexists _, _. split; [eval_eq|]. cbn. lia. Qed.

Lemma session_queries_distinct_witness :
  exists st fr,
    query fresh_retrieve counter_chat echo_loads 2 (mk_rag [] []) (lit "q") = Ok (st, fr) /\
    exists evs, events st = events (mk_rag [] []) ++ evs /\
      head (issued evs) = Some (JStr (lit "q")) /\ NoDup (issued evs).
Proof.
  eexists _, _. split; [eval_eq|].
  eapply (session_queries_distinct fresh_retrieve counter_chat echo_loads 2
           (mk_rag [] []) (lit "q")).
  eval_eq.
Defined.

Lemma session_evidence_distinct_witness :
  exists st fr,
    query fresh_retrieve counter_chat echo_loads 2 (mk_rag [] []) (lit "q") = Ok (st, fr) /\
    exists added,
      all_search_results fr = fresh_retrieve 0 (lit "q") 5 ++ added /\
      NoDup (map text added) /\
      (forall p, p ∈ added -> text p ∉ map text (fresh_retrieve 0 (lit "q") 5)) /\
      (NoDup (map text (fresh_retrieve 0 (lit "q") 5)) ->
       NoDup (map text (all_search_results fr))).
Proof.
  eexists _, _. split; [eval_eq|].
  eapply (session_evidence_distinct fresh_retrieve counter_chat echo_loads 2
           (mk_rag [] []) (lit "q")). eval_eq.
Defined.

(** The initial search returns the same text twice: it is kept twice. *)
Lemma session_evidence_duplicate_initial :
  exists st fr,
    query (const_retrieve [lit "p"; lit "p"]) counter_chat
      (const_loads (verdict true [])) 2 (mk_rag [] []) (lit "q") = Ok (st, fr) /\
    ~ NoDup (map text (all_search_results fr)).
Proof.
  eexists _, _. split; [eval_eq|]. vm_compute. intros Hnd.
  apply NoDup_cons in Hnd as [Hn _]. apply Hn. left.
Qed.

Lemma malformed_reflection_ends_round_witness :
  (failing_loads (clean_fences
     (counter_chat 0 (Reflect (lit "q") (lit "a") 0))) ≫= validate) = None /\
  parse_reflection failing_loads
    (counter_chat 0 (Reflect (lit "q") (lit "a") 0)) = default_reflection /\
  iterate fresh_retrieve counter_chat failing_loads 1 1 (mk_rag [] []) (lit "q")
    (lit "a") [] [] =
    Ok (log (mk_rag [] []) (Chat (Reflect (lit "q") (lit "a") 0)), lit "a", [],
        [mk_iteration_info 1 (lit "a") default_reflection 0]).
Proof.
  split; [vm_compute; reflexivity|].
  apply (malformed_reflection_ends_round fresh_retrieve counter_chat failing_loads
           0 1 (mk_rag [] []) (lit "q") (lit "a") [] []).
  vm_compute. reflexivity.
Defined.

Lemma first_verdict_complete_stops_witness :
  exists st fr rec,
    query (const_retrieve [lit "p"]) counter_chat (const_loads (verdict true []))
      2 (mk_rag [] []) (lit "q") = Ok (st, fr) /\
    head (iteration_history fr) = Some rec /\
    is_complete (it_reflection rec) = true /\
    length (iteration_history fr) = 1%nat /\
    events st = [Search (JStr (lit "q")) 5;
                 Chat (InitialAnswer (lit "q") (const_retrieve [lit "p"] 0 (lit "q") 5));
                 Chat (Reflect (lit "q") (counter_chat 1 (InitialAnswer (lit "q")
                         (const_retrieve [lit "p"] 0 (lit "q") 5))) 1)] /\
    final_answer fr = counter_chat 1 (InitialAnswer (lit "q")
                         (const_retrieve [lit "p"] 0 (lit "q") 5)).
Proof.
  eexists _, _, _. split; [eval_eq|]. split; [eval_eq|]. split; [eval_eq|].
  eapply (first_verdict_complete_stops (const_retrieve [lit "p"]) counter_chat
           (const_loads (verdict true [])) 2 (mk_rag [] []) (lit "q"));
    eval_eq.
Defined.

(** The verdict proposes only the question, which is in the history. *)
Lemma exhausted_plan_ends_round_witness :
  let L := const_loads (verdict false [lit "q"]) in
  let refl := parse_reflection L (counter_chat 0 (Reflect (lit "q") (lit "a") 0)) in
  is_complete refl = false /\
  filter_new [JStr (lit "q")] (search_queries refl) = Ok ([], [JStr (lit "q")]) /\
  iterate fresh_retrieve counter_chat L 1 1 (mk_rag [JStr (lit "q")] []) (lit "q")
    (lit "a") [] [] =
    Ok (mk_rag [JStr (lit "q")] [Chat (Reflect (lit "q") (lit "a") 0)], lit "a", [],
        [mk_iteration_info 1 (lit "a") refl 0]).
Proof.
  cbv zeta.
  assert (Hc : is_complete (parse_reflection (const_loads (verdict false [lit "q"]))
            (counter_chat 0 (Reflect (lit "q") (lit "a") 0))) = false)
    by (vm_compute; reflexivity).
  assert (Hf : filter_new [JStr (lit "q")]
            (search_queries (parse_reflection (const_loads (verdict false [lit "q"]))
               (counter_chat 0 (Reflect (lit "q") (lit "a") 0))))
          = Ok ([], [JStr (lit "q")]))
    by (vm_compute; reflexivity).
  split; [exact Hc|]. split; [exact Hf|].
  exact (exhausted_plan_ends_round fresh_retrieve counter_chat
           (const_loads (verdict false [lit "q"])) 0 1 (mk_rag [JStr (lit "q")] [])
           (lit "q") (lit "a") [] [] [JStr (lit "q")] Hc Hf).
Defined.

Lemma refinement_issues_every_new_query_witness :
  let refl := mk_reflection false None (map JStr [lit "w"; lit "x"; lit "y"; lit "z"]) in
  exists st' new,
    refined_search (const_retrieve [lit "p"]) (mk_rag [JStr (lit "q")] []) refl [] =
      Ok (st', new) /\
    exists nq evs,
      filter_new [JStr (lit "q")] (search_queries refl) = Ok (nq, query_history st') /\
      events st' = [] ++ evs /\ issued evs = nq /\
      ((forall x, x ∈ search_queries refl -> exists s, x = JStr s /\ s <> []) ->
       NoDup (search_queries refl) ->
       (forall x, x ∈ search_queries refl -> x ∉ [JStr (lit "q")]) ->
       nq = search_queries refl).
Proof.
  cbv zeta. eexists _, _. split; [eval_eq|].
  eapply (refinement_issues_every_new_query (const_retrieve [lit "p"])
            (mk_rag [JStr (lit "q")] [])
            (mk_reflection false None (map JStr [lit "w"; lit "x"; lit "y"; lit "z"])) []).
  eval_eq.
Defined.

(** One round sends four refinement queries to the retriever. *)
Lemma refinement_round_sends_four :
  exists st fr,
    query (const_retrieve [lit "p"]) counter_chat
      (const_loads (verdict false [lit "w"; lit "x"; lit "y"; lit "z"]))
      1 (mk_rag [] []) (lit "q") = Ok (st, fr) /\
    length (iteration_history fr) = 1%nat /\
    issued (events st) = map JStr [lit "q"; lit "w"; lit "x"; lit "y"; lit "z"].
Proof. eexists _, _. split; [eval_eq|]. split; vm_compute; reflexivity. Qed.

Lemma degenerate_max_initial_only_witness :
  0 <= 0 /\
  query fresh_retrieve counter_chat echo_loads 0 (mk_rag [] []) (lit "q") =
    Ok (mk_rag [JStr (lit "q")]
          ([] ++ [Search (JStr (lit "q")) 5;
                  Chat (InitialAnswer (lit "q") (fresh_retrieve 0 (lit "q") 5))]),
        mk_final_result (lit "q")
          (counter_chat 1 (InitialAnswer (lit "q") (fresh_retrieve 0 (lit "q") 5)))
          (length (fresh_retrieve 0 (lit "q") 5)) 0 [] (fresh_retrieve 0 (lit "q") 5)).
Proof.
  assert (H : 0 <= 0) by lia. split; [exact H|].
  exact (degenerate_max_initial_only fresh_retrieve counter_chat echo_loads 0
           (mk_rag [] []) (lit "q") H).
Defined.

(* ================================================================== *)
(** * The splitter *)

Lemma length_lstrip s : (length (lstrip s) <= length s)%nat.
Proof. induction s as [|c s IH]; cbn; [lia|]. destruct (is_space c); cbn; lia. Qed.

Lemma length_strip s : (length (strip s) <= length s)%nat.
Proof.
  unfold strip. rewrite length_rev.
  pose proof (length_lstrip (rev (lstrip s))) as H1. rewrite length_rev in H1.
  pose proof (length_lstrip s). lia.
Qed.

Lemma len_strip s : len (strip s) <= len s.
Proof. unfold len. pose proof (length_strip s). lia. Qed.

Lemma force_go_bounded size fuel text :
  Forall (fun c => (length c <= size)%nat) (force_go size fuel text).
Proof.
  revert text. induction fuel as [|fuel IH]; intros [|c text]; cbn; try constructor.
  apply Forall_app. split; [|apply IH].
  case_bool_decide; constructor; [|constructor].
  pose proof (length_strip (take size (c :: text))) as H1.
  rewrite length_take in H1. lia.
Qed.

Section SplitterBound.

Variable cs : Z.
Hypothesis cs_pos : 1 <= cs.

Lemma force_split_bounded text : Forall (fun c => len c <= cs) (force_split cs text).
Proof.
  unfold force_split. eapply Forall_impl; [apply force_go_bounded|].
  intros c Hc. cbn in Hc. unfold len. lia.
Qed.

Lemma process_step_bounded sub chunks cur split :
  (forall s, Forall (fun c => len c <= cs) (sub s)) ->
  Forall (fun c => len c <= cs) chunks -> len cur <= cs ->
  Forall (fun c => len c <= cs) (process_step cs sub (chunks, cur) split).1 /\
  len (process_step cs sub (chunks, cur) split).2 <= cs.
Proof.
  intros Hsub Hch Hcur. unfold process_step.
  assert (Hflush : Forall (fun c => len c <= cs)
    (if bool_decide (cur = []) then chunks else chunks ++ [strip cur])).
  { case_bool_decide; [done|]. apply Forall_app. split; [done|].
    constructor; [|constructor]. pose proof (len_strip cur). lia. }
  cbv beta iota zeta. destruct (bool_decide (strip split = [])); [by split|].
  destruct (cs <? len (strip split)) eqn:Hlt.
  - cbn [fst snd]. split; [|unfold len; cbn; lia].
    unfold handle_oversized_split. apply Forall_app. split; [done|apply Hsub].
  - apply Z.ltb_ge in Hlt. unfold add_split_to_chunk.
    destruct (len (cur ++ strip split) <=? cs) eqn:Hle.
    + apply Z.leb_le in Hle. by split.
    + by split.
Qed.

Lemma fold_process_bounded sub splits chunks cur :
  (forall s, Forall (fun c => len c <= cs) (sub s)) ->
  Forall (fun c => len c <= cs) chunks -> len cur <= cs ->
  Forall (fun c => len c <= cs) (fold_left (process_step cs sub) splits (chunks, cur)).1 /\
  len (fold_left (process_step cs sub) splits (chunks, cur)).2 <= cs.
Proof.
  revert chunks cur. induction splits as [|s splits IH]; intros chunks cur Hsub Hch Hcur.
  - done.
  - cbn [fold_left].
    destruct (process_step_bounded sub chunks cur s Hsub Hch Hcur) as [H1 H2].
    destruct (process_step cs sub (chunks, cur) s) as [chunks' cur'] eqn:E.
    by apply IH.
Qed.

Lemma process_splits_bounded sub splits :
  (forall s, Forall (fun c => len c <= cs) (sub s)) ->
  Forall (fun c => len c <= cs) (process_splits cs sub splits).
Proof.
  intros Hsub. unfold process_splits.
  destruct (fold_process_bounded sub splits [] [] Hsub) as [H1 H2];
    [constructor | unfold len; cbn; lia |].
  match goal with |- context [fold_left ?f ?l ?a] =>
    destruct (fold_left f l a) as [chunks cur] eqn:E end.
  change (fold_left (process_step cs sub) splits (@pair (list pystr) pystr [] []))
    with (fold_left (process_step cs sub) splits (@pair (list pystr) (list pychar) [] []))
    in H1, H2.
  rewrite E in H1, H2. cbn in H1, H2.
  apply Forall_forall. intros c Hc. apply list_elem_of_filter in Hc as [_ Hc].
  revert c Hc. apply Forall_forall.
  destruct (bool_decide (cur = [])); [done|]. apply Forall_app. split; [done|].
  constructor; [|constructor]. pose proof (len_strip cur). lia.
Qed.

Lemma recursive_split_bounded seps text :
  Forall (fun c => len c <= cs) (recursive_split cs seps text).
Proof.
  revert text. induction seps as [|sep seps IH]; intros text; cbn.
  - apply force_split_bounded.
  - case_bool_decide; [apply force_split_bounded|].
    apply process_splits_bounded. exact IH.
Qed.

End SplitterBound.

(** C9: for a chunk size of at least 1, every chunk returned by
    [split_text] has at most [chunk_size] characters, whatever the text
    and the separator list. *)
Theorem split_text_chunks_bounded sp text :
  1 <= chunk_size sp ->
  Forall (fun c => len c <= chunk_size sp) (split_text sp text).
Proof.
  intros Hpos. unfold split_text.
  destruct (bool_decide (text = []) || bool_decide (strip text = [])); [constructor|].
  destruct (len text <=? chunk_size sp) eqn:Hle.
  - apply Z.leb_le in Hle. constructor; [|constructor].
    pose proof (len_strip text). lia.
  - by apply recursive_split_bounded.
Qed.

Lemma split_text_chunks_bounded_witness :
  1 <= chunk_size (new_splitter 5 None) /\
  Forall (fun c => len c <= chunk_size (new_splitter 5 None))
    (split_text (new_splitter 5 None) (lit "aaaaaaaaaaaa bb")).
Proof.
  assert (H : 1 <= chunk_size (new_splitter 5 None)) by (cbn; lia).
  split; [exact H|]. exact (split_text_chunks_bounded _ _ H).
Defined.

(* ------------------------------------------------------------------ *)
(** * Properties of the embedding cache *)

Section EmbeddingFacts.

Context {vec : Type}.
Variable get_cache_key : pystr -> pystr.
Variable embeddings_create : list pystr -> list vec.
(** The endpoint returns one embedding per input text, in input order. *)
Variable embed : pystr -> vec.
Hypothesis create_ok : forall batch, embeddings_create batch = map embed batch.
Variable cull : gmap pystr vec -> gmap pystr vec.

Lemma batches_go_concat size fuel texts :
  (1 <= size)%nat -> (length texts <= fuel)%nat ->
  concat (batches_go size fuel texts) = texts.
Proof.
  intros Hs. revert texts. induction fuel as [|fuel IH]; intros texts Hl.
  - destruct texts; [done | cbn in Hl; lia].
  - destruct texts as [|t ts]; [done|].
    cbn [batches_go concat]. rewrite IH.
    + apply take_drop.
    + rewrite length_drop. cbn in *. lia.
Qed.

Lemma batch_get_embeddings_ok texts :
  batch_get_embeddings embeddings_create texts 64 = map embed texts.
Proof.
  unfold batch_get_embeddings.
  rewrite (map_ext embeddings_create (map embed)) by apply create_ok.
  rewrite <- concat_map. rewrite batches_go_concat; [done | lia | lia].
Qed.

Lemma classify_perm cache k texts cached unc :
  classify get_cache_key cache k texts = (cached, unc) ->
  cached ++ map (fun u => (u.1.1, embed u.1.2)) unc ≡ₚ
  zip (seq k (length texts))
    (map (fun t => match cache !! get_cache_key t with
                   | Some e => e | None => embed t end) texts).
Proof.
  revert k cached unc. induction texts as [|t ts IH]; intros k cached unc Hc.
  - cbn in Hc. injection Hc as <- <-. done.
  - cbn in Hc. destruct (classify get_cache_key cache (S k) ts) as [c' u'] eqn:E.
    specialize (IH _ _ _ E).
    cbn [length seq map zip zip_with].
    destruct (cache !! get_cache_key t) as [e|] eqn:Hl; injection Hc as <- <-.
    + cbn. by apply perm_skip.
    + cbn. etrans; [symmetry; apply Permutation_middle|]. by apply perm_skip.
Qed.

Lemma fold_new_results (idxs : list nat) (es : list vec) (keys : list pystr) (c : gmap pystr vec) (r : list (nat * vec)) :
  (length idxs <= length keys)%nat ->
  (fold_left (record_new cull) (zip (zip idxs es) keys) (c, r)).2 = r ++ zip idxs es.
Proof.
  revert es keys c r. induction idxs as [|i idxs IH]; intros es keys c r Hl.
  - cbn. by rewrite app_nil_r.
  - destruct es as [|e es]; [cbn; by rewrite app_nil_r|].
    destruct keys as [|key keys]; [cbn in Hl; lia|].
    cbn [zip zip_with fold_left record_new].
    rewrite IH by (cbn in Hl; lia). by rewrite <- app_assoc.
Qed.

Lemma zip_uncached (F : nat * pystr * pystr -> nat * pystr) unc :
  (forall u, F u = (u.1.1, u.1.2)) ->
  zip (map fst (map F unc)) (map embed (map snd (map F unc))) =
  map (fun u => (u.1.1, embed u.1.2)) unc.
Proof.
  intros HF. induction unc as [|u unc IH]; cbn; [done|].
  rewrite HF, IH. done.
Qed.

Lemma uncached_results cache cached unc
    (F : nat * pystr * pystr -> nat * pystr) (G : nat * pystr * pystr -> pystr) :
  (forall u, F u = (u.1.1, u.1.2)) ->
  (match map F unc with
   | [] => (cache, cached)
   | _ :: _ =>
       fold_left (record_new cull)
         (zip (zip (map fst (map F unc))
                   (batch_get_embeddings embeddings_create (map snd (map F unc)) 64))
              (map G unc))
         (cache, cached)
   end).2 = cached ++ map (fun u => (u.1.1, embed u.1.2)) unc.
Proof.
  intros HF. destruct (map F unc) as [|x xs] eqn:E.
  - apply map_eq_nil in E as ->. cbn. by rewrite app_nil_r.
  - rewrite <- E. rewrite batch_get_embeddings_ok.
    rewrite fold_new_results by (rewrite !length_map; lia).
    by rewrite zip_uncached.
Qed.

Lemma zip_seq_elem {A} k (ys : list A) i a :
  (i, a) ∈ zip (seq k (length ys)) ys -> (k <= i)%nat /\ ys !! (i - k)%nat = Some a.
Proof.
  revert k. induction ys as [|y ys IH]; intros k H; cbn in H.
  - by apply elem_of_nil in H.
  - apply elem_of_cons in H as [H|H].
    + injection H as -> ->. rewrite Nat.sub_diag. split; [lia | done].
    + apply IH in H as [Hk Hy]. split; [lia|].
      replace (i - k)%nat with (S (i - S k)) by lia. exact Hy.
Qed.

Lemma zip_seq_sorted k (ys : list vec) :
  Sorted idx_le (zip (seq k (length ys)) ys).
Proof.
  revert k. induction ys as [|y ys IH]; intros k; cbn; [constructor|].
  constructor; [apply IH|].
  destruct ys; cbn; constructor. unfold idx_le; cbn; lia.
Qed.

Lemma map_snd_zip_seq {A} k (ys : list A) :
  map snd (zip (seq k (length ys)) ys) = ys.
Proof.
  revert k. induction ys as [|y ys IH]; intros k; cbn; [done|]. by rewrite IH.
Qed.

Lemma idx_le_trans : Transitive (@idx_le vec).
Proof. intros x y z; unfold idx_le; lia. Qed.

Lemma idx_le_total : Total (@idx_le vec).
Proof. intros x y; unfold idx_le; lia. Qed.

#[local] Existing Instances idx_le_trans idx_le_total.

Lemma sorted_result (res : list (nat * vec)) (ys : list vec) :
  res ≡ₚ zip (seq 0 (length ys)) ys -> map snd (merge_sort idx_le res) = ys.
Proof.
  intros Hp.
  assert (Hs : merge_sort idx_le res = zip (seq 0 (length ys)) ys).
  { apply (Sorted_unique_strong idx_le).
    - intros [i a] [j b] Hx1 Hx2 H12 H21.
      rewrite merge_sort_Permutation, Hp in Hx1.
      unfold idx_le in *; cbn in *.
      assert (i = j) as <- by lia.
      apply zip_seq_elem in Hx1 as [_ Ha]. apply zip_seq_elem in Hx2 as [_ Hb].
      congruence.
    - apply Sorted_merge_sort, idx_le_total.
    - apply zip_seq_sorted.
    - by rewrite merge_sort_Permutation. }
  rewrite Hs. apply map_snd_zip_seq.
Qed.

Lemma get_text_embedding_spec cache texts :
  (get_text_embedding get_cache_key embeddings_create cull cache texts).2 =
  map (fun t => match cache !! get_cache_key t with
                | Some e => e | None => embed t end) texts.
Proof.
  unfold get_text_embedding, get_cached_embeddings.
  pose proof (classify_perm cache 0 texts) as Hp.
  destruct (classify get_cache_key cache 0 texts) as [cached unc].
  specialize (Hp _ _ eq_refl).
  cbv beta iota zeta.
  match goal with |- context [match ?m with (_, _) => _ end] =>
    destruct m as [c' res] eqn:Em end.
  apply (f_equal snd) in Em. cbn [snd] in Em.
  rewrite uncached_results in Em by (intros [[? ?] ?]; reflexivity).
  cbn [snd]. apply sorted_result. rewrite length_map, <- Em. exact Hp.
Qed.

End EmbeddingFacts.

(** C10: for every list of texts, every prior cache state and whatever
    [cache.set] culls, [get_text_embedding] returns exactly one embedding per input text and
    in input order: the i-th is the embedding cached under the key of the
    i-th text when there is one, and otherwise the embedding the endpoint
    computes for the i-th text.  In particular, when the cache holds the
    embeddings of the texts it has keys for, the result is the list of the
    embeddings of the texts. *)
Theorem get_text_embedding_in_input_order {vec : Type}
    (get_cache_key : pystr -> pystr) (embeddings_create : list pystr -> list vec)
    (embed : pystr -> vec) (cull : gmap pystr vec -> gmap pystr vec)
    (cache : gmap pystr vec) (texts : list pystr) :
  (forall batch, embeddings_create batch = map embed batch) ->
  (get_text_embedding get_cache_key embeddings_create cull cache texts).2 =
    map (fun t => match cache !! get_cache_key t with
                  | Some e => e | None => embed t end) texts /\
  ((forall t e, cache !! get_cache_key t = Some e -> e = embed t) ->
   (get_text_embedding get_cache_key embeddings_create cull cache texts).2 = map embed texts).
Proof.
  intros Hcreate.
  assert (Hspec := get_text_embedding_spec get_cache_key embeddings_create embed
                     Hcreate cull cache texts).
  split; [exact Hspec|]. intros Hcons. rewrite Hspec. apply map_ext.
  intros t. destruct (cache !! get_cache_key t) as [e|] eqn:He; [|done].
  by apply Hcons.
Qed.

Lemma get_text_embedding_in_input_order_witness :
  (forall batch, map len batch = map len batch) /\
  (get_text_embedding id (map len) (delete (lit "a")) {[lit "a" := 1]}
     [lit "bb"; lit "a"; lit "ccc"]).2 =
    map (fun t => match ({[lit "a" := 1]} : gmap pystr Z) !! id t with
                  | Some e => e | None => len t end) [lit "bb"; lit "a"; lit "ccc"] /\
  ((forall t e, ({[lit "a" := 1]} : gmap pystr Z) !! id t = Some e -> e = len t) ->
   (get_text_embedding id (map len) (delete (lit "a")) {[lit "a" := 1]}
      [lit "bb"; lit "a"; lit "ccc"]).2 =
     map len [lit "bb"; lit "a"; lit "ccc"]).
Proof.
  assert (H : forall batch, map len batch = map len batch) by reflexivity.
  split; [exact H|].
  exact (get_text_embedding_in_input_order id (map len) len (delete (lit "a")) {[lit "a" := 1]}
           [lit "bb"; lit "a"; lit "ccc"] H).
Defined.

(* ================================================================== *)
(** * More properties of [RecursiveTextSplitter] *)

Section StripFacts.

Lemma lstrip_split s :
  exists ws, s = ws ++ lstrip s /\ Forall (fun c => is_space c = true) ws.
Proof.
  induction s as [|c s IH]; cbn; [by exists []|].
  destruct (is_space c) eqn:Hc.
  - destruct IH as (ws & Hs & Hw). exists (c :: ws). split; [cbn; congruence|].
    by constructor.
  - by exists [].
Qed.

Lemma lstrip_head s c t : lstrip s = c :: t -> is_space c = false.
Proof.
  induction s as [|c' s IH]; cbn; [discriminate|].
  destruct (is_space c') eqn:Hc; [exact IH|]. intros H. by injection H as -> _.
Qed.

Lemma lstrip_fix s :
  (forall c t, s = c :: t -> is_space c = false) -> lstrip s = s.
Proof. destruct s as [|c t]; cbn; [done|]. intros H. by rewrite (H c t eq_refl). Qed.

Lemma lstrip_spaces ws s :
  Forall (fun c => is_space c = true) ws -> lstrip (ws ++ s) = lstrip s.
Proof. induction 1 as [|c ws Hc _ IH]; cbn; [done|]. by rewrite Hc. Qed.

Lemma strip_idem s : strip (strip s) = strip s.
Proof.
  unfold strip. set (a := lstrip s). set (b := lstrip (rev a)).
  destruct (lstrip_split (rev a)) as (ws & Hws & _). fold b in Hws.
  assert (Ha : a = rev b ++ rev ws).
  { rewrite <- (rev_involutive a), Hws. by rewrite rev_app_distr. }
  rewrite (lstrip_fix (rev b)).
  - rewrite rev_involutive. rewrite (lstrip_fix b); [done|].
    intros c t Hb. exact (lstrip_head (rev a) c t Hb).
  - intros c t Hb. apply (lstrip_head s c (t ++ rev ws)).
    fold a. rewrite Ha, Hb. done.
Qed.

Lemma filter_app_list {A} (f : A -> bool) l1 l2 :
  List.filter f (l1 ++ l2) = List.filter f l1 ++ List.filter f l2.
Proof. induction l1 as [|x l1 IH]; cbn; [done|]. rewrite IH. by destruct (f x). Qed.

Lemma filter_rev_list {A} (f : A -> bool) l :
  List.filter f (rev l) = rev (List.filter f l).
Proof.
  induction l as [|x l IH]; cbn; [done|].
  rewrite filter_app_list, IH. cbn. destruct (f x); cbn; [done|]. by rewrite app_nil_r.
Qed.

Lemma filter_nonspace_lstrip s :
  List.filter (fun c => negb (is_space c)) (lstrip s) = List.filter (fun c => negb (is_space c)) s.
Proof.
  induction s as [|c s IH]; [done|]. cbn.
  destruct (is_space c) eqn:Hc; cbn; [exact IH|]. by rewrite Hc.
Qed.

Lemma filter_nonspace_strip s :
  List.filter (fun c => negb (is_space c)) (strip s) = List.filter (fun c => negb (is_space c)) s.
Proof.
  unfold strip. by rewrite filter_rev_list, filter_nonspace_lstrip, filter_rev_list,
    rev_involutive, filter_nonspace_lstrip.
Qed.

Lemma filter_nonspace_strip_nil s :
  strip s = [] -> List.filter (fun c => negb (is_space c)) s = [].
Proof. intros H. by rewrite <- filter_nonspace_strip, H. Qed.

End StripFacts.

Section SplitterFacts.

Lemma split_go_nonempty sep fuel text cur : split_go sep fuel text cur <> [].
Proof.
  revert text cur. induction fuel as [|fuel IH]; intros text cur; cbn; [done|].
  destruct text as [|c t]; [done|]. by destruct (startswith _ _).
Qed.

Lemma split_go_join sep fuel text cur :
  sep <> [] -> (length text <= fuel)%nat ->
  py_join sep (split_go sep fuel text cur) = rev cur ++ text.
Proof.
  intros Hsep. revert text cur. induction fuel as [|fuel IH]; intros text cur Hl.
  - destruct text; [done | cbn in Hl; lia].
  - destruct text as [|c t]; [by rewrite app_nil_r|].
    cbn [split_go]. destruct (startswith (c :: t) sep) eqn:Hs.
    + unfold startswith in Hs. apply bool_decide_eq_true in Hs.
      destruct (split_go sep fuel (drop (length sep) (c :: t)) []) as [|p ps] eqn:E;
        [by apply split_go_nonempty in E|].
      rewrite <- E. cbn [py_join]. rewrite E. rewrite <- E.
      rewrite IH; cbn [rev app].
      * rewrite <- Hs at 1. by rewrite take_drop.
      * rewrite length_drop. destruct sep; [done|]. cbn in *. lia.
    + rewrite IH by (cbn in Hl; lia). cbn. by rewrite <- app_assoc.
Qed.

Lemma concat_sep_last sep l x :
  concat (map (fun piece => piece ++ sep) l ++ [x]) = py_join sep (l ++ [x]).
Proof.
  induction l as [|p l IH]; cbn; [by rewrite app_nil_r|].
  rewrite IH. destruct l; cbn; by rewrite <- app_assoc.
Qed.

Lemma split_by_separator_concat text sep :
  sep <> [] -> concat (split_by_separator text sep) = text.
Proof.
  intros Hsep. unfold split_by_separator, py_split.
  pose proof (split_go_join sep (length text) text [] Hsep ltac:(lia)) as Hj.
  destruct (reverse (split_go sep (length text) text [])) as [|last rest] eqn:E.
  - apply (f_equal reverse) in E. rewrite reverse_involutive in E.
    by apply split_go_nonempty in E.
  - apply (f_equal reverse) in E. rewrite reverse_involutive, reverse_cons in E.
    rewrite concat_sep_last. transitivity (py_join sep (split_go sep (length text) text [])); [f_equal; symmetry; exact E | exact Hj].
Qed.

Lemma concat_filter_nonempty (l : list pystr) :
  concat (filter (fun chunk => chunk <> []) l) = concat l.
Proof.
  induction l as [|c l IH]; [done|].
  rewrite filter_cons. case_decide as Hc; cbn [concat]; [f_equal; exact IH|].
  try apply dec_stable in Hc. subst. exact IH.
Qed.

Lemma force_go_clean size fuel text :
  Forall (fun c => c <> [] /\ strip c = c) (force_go size fuel text).
Proof.
  revert text. induction fuel as [|fuel IH]; intros text; cbn; [constructor|].
  destruct text as [|x t]; [constructor|].
  apply Forall_app. split; [|apply IH].
  case_bool_decide; [constructor|]. constructor; [split; [done|apply strip_idem]|constructor].
Qed.

Lemma force_go_content size fuel text :
  (1 <= size)%nat -> (length text <= fuel)%nat ->
  List.filter (fun c => negb (is_space c)) (concat (force_go size fuel text)) =
  List.filter (fun c => negb (is_space c)) text.
Proof.
  intros Hs. revert text. induction fuel as [|fuel IH]; intros text Hl.
  - destruct text; [done | cbn in Hl; lia].
  - destruct text as [|x t]; [done|].
    cbn [force_go]. rewrite concat_app, !filter_app_list, IH.
    + symmetry. rewrite <- (take_drop size (x :: t)) at 1. symmetry. rewrite filter_app_list. f_equal.
      case_bool_decide as Hb; cbn.
      * by rewrite filter_nonspace_strip_nil.
      * by rewrite app_nil_r, filter_nonspace_strip.
    + rewrite length_drop. cbn in *. lia.
Qed.

Lemma recursive_split_clean cs seps text :
  Forall (fun c => c <> [] /\ strip c = c) (recursive_split cs seps text).
Proof.
  revert text. induction seps as [|sep seps IH]; intros text; cbn.
  - apply force_go_clean.
  - case_bool_decide; [apply force_go_clean|].
    unfold process_splits.
    assert (Hinv : forall splits chunks cur,
      Forall (fun c => strip c = c) chunks ->
      Forall (fun c => strip c = c) (fold_left (process_step cs (recursive_split cs seps)) splits (chunks, cur)).1).
    { induction splits as [|s splits IHs]; intros chunks cur Hc; cbn [fold_left]; [done|].
      destruct (process_step cs (recursive_split cs seps) (chunks, cur) s) as [ch' cur'] eqn:E.
      apply IHs. unfold process_step in E. cbv beta iota zeta in E.
      destruct (bool_decide (strip s = [])); [by injection E as <- _|].
      destruct (cs <? len (strip s)).
      + injection E as <- _. unfold handle_oversized_split. apply Forall_app. split.
        * destruct (bool_decide (cur = [])); [done|].
          apply Forall_app. split; [done|]. constructor; [apply strip_idem|constructor].
        * eapply Forall_impl; [apply IH|]. by intros c [_ ?].
      + unfold add_split_to_chunk in E. destruct (len (cur ++ strip s) <=? cs).
        * by injection E as <- _.
        * injection E as <- _. destruct (bool_decide (cur = [])); [done|].
          apply Forall_app. split; [done|]. constructor; [apply strip_idem|constructor]. }
    pose proof (Hinv (split_by_separator text sep) [] [] ltac:(constructor)) as Hf.
    destruct (fold_left (process_step cs (recursive_split cs seps))
                (split_by_separator text sep) ([], [])) as [chunks cur] eqn:E.
    change (fold_left (process_step cs (recursive_split cs seps)) (split_by_separator text sep)
             (@pair (list pystr) pystr [] []))
      with (fold_left (process_step cs (recursive_split cs seps)) (split_by_separator text sep)
             (@pair (list pystr) (list pychar) [] [])) in Hf.
    rewrite E in Hf. cbn in Hf.
    assert (Hall : Forall (fun c => strip c = c)
      (if bool_decide (cur = []) then chunks else chunks ++ [strip cur])).
    { destruct (bool_decide (cur = [])); [done|].
      apply Forall_app. split; [done|]. constructor; [apply strip_idem|constructor]. }
    rewrite Forall_forall in Hall.
    apply Forall_forall. intros c Hc. apply list_elem_of_filter in Hc as [Hne Hc].
    split; [done|]. by apply Hall.
Qed.

Section Content.

Variable cs : Z.
Hypothesis cs_pos : 1 <= cs.

Lemma process_step_content sub acc s :
  (forall t, List.filter (fun c => negb (is_space c)) (concat (sub t)) =
             List.filter (fun c => negb (is_space c)) t) ->
  List.filter (fun c => negb (is_space c)) (concat (process_step cs sub acc s).1 ++ (process_step cs sub acc s).2) =
  List.filter (fun c => negb (is_space c)) (concat acc.1 ++ acc.2) ++
  List.filter (fun c => negb (is_space c)) s.
Proof.
  intros Hsub. destruct acc as [chunks cur]. unfold process_step. cbv beta iota zeta.
  destruct (bool_decide (strip s = [])) eqn:Hb.
  - apply bool_decide_eq_true in Hb. cbn [fst snd].
    rewrite (filter_nonspace_strip_nil s Hb). by rewrite app_nil_r.
  - destruct (cs <? len (strip s)); cbn [fst snd];
      unfold handle_oversized_split, add_split_to_chunk;
      [|destruct (len (cur ++ strip s) <=? cs); cbn [fst snd]];
      destruct (bool_decide (cur = [])) eqn:Hc;
      try (apply bool_decide_eq_true in Hc; subst cur);
      rewrite ?concat_app, ?app_nil_r; cbn [concat];
      rewrite ?app_nil_r, ?filter_app_list, ?Hsub, ?filter_nonspace_strip, ?app_assoc;
      try reflexivity;
      cbn [List.filter]; rewrite ?app_nil_r; reflexivity.
Qed.

Lemma fold_process_content sub splits acc :
  (forall t, List.filter (fun c => negb (is_space c)) (concat (sub t)) =
             List.filter (fun c => negb (is_space c)) t) ->
  List.filter (fun c => negb (is_space c))
    (concat (fold_left (process_step cs sub) splits acc).1 ++
     (fold_left (process_step cs sub) splits acc).2) =
  List.filter (fun c => negb (is_space c)) (concat acc.1 ++ acc.2) ++
  List.filter (fun c => negb (is_space c)) (concat splits).
Proof.
  intros Hsub. revert acc. induction splits as [|s splits IH]; intros acc; cbn [fold_left].
  - cbn. by rewrite app_nil_r.
  - rewrite IH, process_step_content by done. cbn [concat].
    by rewrite (filter_app_list _ s), app_assoc.
Qed.

Lemma recursive_split_content seps text :
  List.filter (fun c => negb (is_space c)) (concat (recursive_split cs seps text)) =
  List.filter (fun c => negb (is_space c)) text.
Proof.
  revert text. induction seps as [|sep seps IH]; intros text; cbn.
  - apply force_go_content; lia.
  - case_bool_decide as Hsep; [apply force_go_content; lia|].
    unfold process_splits.
    match goal with |- context [fold_left ?f ?l ?a] =>
      pose proof (fold_process_content (recursive_split cs seps) l a IH) as Hf;
      revert Hf; destruct (fold_left f l a) as [chunks cur]; intros Hf end.
    rewrite split_by_separator_concat in Hf by done. cbn in Hf.
    rewrite concat_filter_nonempty, <- Hf.
    case_bool_decide as Hc; [subst; by rewrite app_nil_r|].
    rewrite concat_app, !filter_app_list. cbn. by rewrite app_nil_r, filter_nonspace_strip.
Qed.

End Content.

End SplitterFacts.

(** [_split_by_separator] loses nothing: for a non-empty separator, the
    pieces (the separator kept at the end of all but the last one) joined
    back together give the text. *)
Theorem split_by_separator_joins_back text sep :
  sep <> [] -> concat (split_by_separator text sep) = text.
Proof. apply split_by_separator_concat. Qed.

Lemma split_by_separator_joins_back_witness :
  lit "," <> [] /\ concat (split_by_separator (lit "a,b,,c,") (lit ",")) = lit "a,b,,c,".
Proof.
  assert (H : lit "," <> []) by discriminate.
  split; [exact H|]. exact (split_by_separator_joins_back _ _ H).
Defined.

(** Every chunk returned by [split_text] is non-empty and already
    stripped (no leading or trailing whitespace), for every chunk size,
    separator list and text. *)
Theorem split_text_chunks_stripped sp text :
  Forall (fun c => c <> [] /\ strip c = c) (split_text sp text).
Proof.
  unfold split_text.
  destruct (bool_decide (text = []) || bool_decide (strip text = [])) eqn:Hb; [constructor|].
  apply orb_false_iff in Hb as [_ Hs]. apply bool_decide_eq_false in Hs.
  destruct (len text <=? chunk_size sp).
  - constructor; [|constructor]. split; [done | apply strip_idem].
  - apply recursive_split_clean.
Qed.

(** For a chunk size of at least 1, [split_text] drops nothing but
    whitespace and keeps the order: the non-whitespace characters of the
    chunks, read in order, are those of the text. *)
Theorem split_text_keeps_content sp text :
  1 <= chunk_size sp ->
  List.filter (fun c => negb (is_space c)) (concat (split_text sp text)) =
  List.filter (fun c => negb (is_space c)) text.
Proof.
  intros Hpos. unfold split_text.
  destruct (bool_decide (text = []) || bool_decide (strip text = [])) eqn:Hb.
  - apply orb_true_iff in Hb as [Hb|Hb]; apply bool_decide_eq_true in Hb.
    + by subst.
    + cbn. symmetry. by apply filter_nonspace_strip_nil.
  - destruct (len text <=? chunk_size sp).
    + cbn. by rewrite app_nil_r, filter_nonspace_strip.
    + by apply recursive_split_content.
Qed.

Lemma split_text_keeps_content_witness :
  1 <= chunk_size (new_splitter 4 None) /\
  List.filter (fun c => negb (is_space c))
    (concat (split_text (new_splitter 4 None) (lit "ab cdefgh, ij.  k"))) =
  List.filter (fun c => negb (is_space c)) (lit "ab cdefgh, ij.  k").
Proof.
  assert (H : 1 <= chunk_size (new_splitter 4 None)) by (cbn; lia).
  split; [exact H|]. exact (split_text_keeps_content _ _ H).
Defined.

(* ================================================================== *)
(** * More properties of the embedding cache *)

Lemma elem_of_map_inv {A B} (f : A -> B) (l : list A) x :
  x ∈ map f l -> exists y, y ∈ l /\ x = f y.
Proof.
  induction l as [|a l IH]; cbn; intros H; [by apply elem_of_nil in H|].
  apply elem_of_cons in H as [->|H].
  - exists a. split; [by apply elem_of_cons; left | done].
  - destruct (IH H) as [y [Hy ->]]. exists y. split; [by apply elem_of_cons; right | done].
Qed.

Lemma elem_of_map_2 {A B} (f : A -> B) (l : list A) y :
  y ∈ l -> f y ∈ map f l.
Proof.
  induction l as [|a l IH]; cbn; intros H; [by apply elem_of_nil in H|].
  apply elem_of_cons in H as [->|H]; apply elem_of_cons; [by left | right; by apply IH].
Qed.

Lemma elem_of_zip_r {A B} (l1 : list A) (l2 : list B) x :
  x ∈ zip l1 l2 -> x.2 ∈ l2.
Proof.
  revert l2. induction l1 as [|a l1 IH]; intros [|b l2] H; cbn in H;
    try by apply elem_of_nil in H.
  apply elem_of_cons in H as [->|H]; apply elem_of_cons; [by left | right; by apply IH].
Qed.

Lemma batches_go_shape size fuel texts :
  (1 <= size)%nat -> (length texts <= fuel)%nat ->
  Forall (fun b => 1 <= length b <= size)%nat (batches_go size fuel texts) /\
  length (batches_go size fuel texts) = ((length texts + size - 1) / size)%nat.
Proof.
  intros Hs. revert texts. induction fuel as [|fuel IH]; intros texts Hl.
  - destruct texts; [|cbn in Hl; lia]. cbn. split; [constructor|].
    symmetry. apply Nat.div_small. lia.
  - destruct texts as [|t ts].
    + cbn. split; [constructor|]. symmetry. apply Nat.div_small. lia.
    + cbn [batches_go length]. destruct (IH (drop size (t :: ts))) as [Hf Hn].
      { rewrite length_drop. cbn in *. lia. }
      split.
      * constructor; [|exact Hf]. rewrite length_take. cbn. lia.
      * rewrite Hn, length_drop. cbn [length].
        replace (S (length ts) + size - 1)%nat with (length ts + 1 * size)%nat by lia.
        rewrite Nat.div_add by lia.
        destruct (decide (S (length ts) <= size)%nat).
        -- replace (S (length ts) - size + size - 1)%nat with (size - 1)%nat by lia.
           rewrite (Nat.div_small (size - 1)) by lia.
           rewrite (Nat.div_small (length ts)) by lia. lia.
        -- replace (S (length ts) - size + size - 1)%nat with (length ts) by lia. lia.
Qed.

Section EmbeddingCache.

Context {vec : Type}.
Variable get_cache_key : pystr -> pystr.
Variable embeddings_create : list pystr -> list vec.
Variable cull : gmap pystr vec -> gmap pystr vec.

Lemma fold_record_sound (l : list (nat * vec * pystr)) (c0 : gmap pystr vec)
    (r : list (nat * vec)) k v :
  (forall c, cull c ⊆ c) ->
  (fold_left (record_new cull) l (c0, r)).1 !! k = Some v ->
  c0 !! k = Some v \/ exists item, item ∈ l /\ item.2 = k /\ item.1.2 = v.
Proof.
  intros Hc. revert c0 r. induction l as [|[[i e] k'] l IH]; intros c0 r H; [by left|].
  cbn [fold_left record_new] in H. apply IH in H as [H|(item & Hi & Hk & Hv)].
  - pose proof (lookup_weaken _ _ _ _ H (Hc _)) as H'.
    destruct (decide (k = k')) as [->|Hne].
    + rewrite lookup_insert_eq in H'. injection H' as <-. right.
      exists (i, e, k'). split; [by apply elem_of_cons; left | done].
    + rewrite lookup_insert_ne in H' by congruence. by left.
  - right. exists item. split; [by apply elem_of_cons; right | done].
Qed.

Lemma fold_record_present (l : list (nat * vec * pystr)) (c0 : gmap pystr vec)
    (r : list (nat * vec)) k :
  (forall c, cull c = c) ->
  k ∈ map snd l \/ is_Some (c0 !! k) ->
  is_Some ((fold_left (record_new cull) l (c0, r)).1 !! k).
Proof.
  intros Hid. revert c0 r. induction l as [|[[i e] k'] l IH]; intros c0 r H.
  - destruct H as [H|H]; [by apply elem_of_nil in H | done].
  - cbn [fold_left record_new]. rewrite Hid. apply IH.
    destruct (decide (k = k')) as [->|Hne].
    + right. rewrite lookup_insert_eq. by eexists.
    + destruct H as [H|H].
      * cbn in H. apply elem_of_cons in H as [H|H]; [done | by left].
      * right. by rewrite lookup_insert_ne by congruence.
Qed.

Lemma fold_record_value (l : list (nat * vec * pystr)) (c0 : gmap pystr vec)
    (r : list (nat * vec)) k v :
  (forall c, cull c = c) ->
  (forall item, item ∈ l -> item.2 = k -> item.1.2 = v) ->
  k ∈ map snd l \/ c0 !! k = Some v ->
  (fold_left (record_new cull) l (c0, r)).1 !! k = Some v.
Proof.
  intros Hid. revert c0 r. induction l as [|[[i e] k'] l IH]; intros c0 r Hv H.
  - destruct H as [H|H]; [by apply elem_of_nil in H | done].
  - cbn [fold_left record_new]. rewrite Hid. apply IH.
    { intros item Hi. apply Hv. by apply elem_of_cons; right. }
    destruct (decide (k = k')) as [->|Hne].
    + right. rewrite lookup_insert_eq. f_equal.
      apply (Hv (i, e, k')); [by apply elem_of_cons; left | done].
    + destruct H as [H|H].
      * cbn in H. apply elem_of_cons in H as [H|H]; [done | by left].
      * right. by rewrite lookup_insert_ne by congruence.
Qed.

Lemma classify_unc (cache : gmap pystr vec) k texts cached unc :
  classify get_cache_key cache k texts = (cached, unc) ->
  forall u, u ∈ unc ->
    u.2 = get_cache_key u.1.2 /\ cache !! u.2 = None /\ u.1.2 ∈ texts.
Proof.
  revert k cached unc. induction texts as [|t ts IH]; intros k cached unc Hc u Hu.
  - cbn in Hc. injection Hc as <- <-. by apply elem_of_nil in Hu.
  - cbn in Hc. destruct (classify get_cache_key cache (S k) ts) as [c' u'] eqn:E.
    specialize (IH _ _ _ E).
    destruct (cache !! get_cache_key t) as [e|] eqn:Hl; injection Hc as <- <-.
    + destruct (IH u Hu) as (H1 & H2 & H3). split; [done | split; [done |]].
      by apply elem_of_cons; right.
    + apply elem_of_cons in Hu as [->|Hu].
      * cbn. split; [done | split; [done |]]. by apply elem_of_cons; left.
      * destruct (IH u Hu) as (H1 & H2 & H3). split; [done | split; [done |]].
        by apply elem_of_cons; right.
Qed.

Lemma classify_covers (cache : gmap pystr vec) k texts cached unc :
  classify get_cache_key cache k texts = (cached, unc) ->
  forall t, t ∈ texts ->
    (exists e, cache !! get_cache_key t = Some e) \/ exists u, u ∈ unc /\ u.1.2 = t.
Proof.
  revert k cached unc. induction texts as [|t0 ts IH]; intros k cached unc Hc t Ht.
  - by apply elem_of_nil in Ht.
  - cbn in Hc. destruct (classify get_cache_key cache (S k) ts) as [c' u'] eqn:E.
    specialize (IH _ _ _ E).
    destruct (cache !! get_cache_key t0) as [e|] eqn:Hl; injection Hc as <- <-;
      apply elem_of_cons in Ht as [->|Ht].
    + left. by exists e.
    + by apply IH.
    + right. exists (k, t0, get_cache_key t0). split; [by apply elem_of_cons; left | done].
    + destruct (IH t Ht) as [H|[u [Hu Hut]]]; [by left|].
      right. exists u. split; [by apply elem_of_cons; right | done].
Qed.

Lemma classify_hits (cache : gmap pystr vec) k texts (f : pystr -> vec) :
  (forall t, t ∈ texts -> cache !! get_cache_key t = Some (f t)) ->
  classify get_cache_key cache k texts = (zip (seq k (length texts)) (map f texts), []).
Proof.
  revert k. induction texts as [|t ts IH]; intros k Hf; [done|].
  cbn [classify]. rewrite IH by (intros t' Ht'; apply Hf; by apply elem_of_cons; right).
  rewrite Hf by (by apply elem_of_cons; left). done.
Qed.

Section Endpoint.

Variable embed : pystr -> vec.
Hypothesis create_ok : forall batch, embeddings_create batch = map embed batch.

Lemma zip_record_items (F : nat * pystr * pystr -> nat * pystr)
    (G : nat * pystr * pystr -> pystr) unc :
  (forall u, F u = (u.1.1, u.1.2)) -> (forall u, G u = u.2) ->
  zip (zip (map fst (map F unc)) (map embed (map snd (map F unc)))) (map G unc) =
  map (fun u => (u.1.1, embed u.1.2, u.2)) unc.
Proof.
  intros HF HG. induction unc as [|u unc IH]; cbn; [done|].
  rewrite HF, HG, IH. done.
Qed.

Lemma uncached_cache_sound (cache : gmap pystr vec) cached unc
    (F : nat * pystr * pystr -> nat * pystr) (G : nat * pystr * pystr -> pystr) k v :
  (forall u, F u = (u.1.1, u.1.2)) -> (forall u, G u = u.2) ->
  (forall c, cull c ⊆ c) ->
  (match map F unc with
   | [] => (cache, cached)
   | _ :: _ =>
       fold_left (record_new cull)
         (zip (zip (map fst (map F unc))
                   (batch_get_embeddings embeddings_create (map snd (map F unc)) 64))
              (map G unc))
         (cache, cached)
   end).1 !! k = Some v ->
  cache !! k = Some v \/ exists u, u ∈ unc /\ u.2 = k /\ embed u.1.2 = v.
Proof.
  intros HF HG Hc. destruct (map F unc) as [|x xs] eqn:E; intros H; [by left|].
  rewrite <- E in H. rewrite (batch_get_embeddings_ok embeddings_create embed create_ok) in H.
  rewrite zip_record_items in H by done.
  apply fold_record_sound in H as [H|(item & Hi & Hk & Hv)]; [by left| |exact Hc].
  right. apply elem_of_map_inv in Hi as [u [Hu ->]]. cbn in *. by exists u.
Qed.

Lemma uncached_cache_value (cache : gmap pystr vec) cached unc
    (F : nat * pystr * pystr -> nat * pystr) (G : nat * pystr * pystr -> pystr) k v :
  (forall u, F u = (u.1.1, u.1.2)) -> (forall u, G u = u.2) ->
  (forall c, cull c = c) ->
  (forall u, u ∈ unc -> u.2 = k -> embed u.1.2 = v) ->
  (exists u, u ∈ unc /\ u.2 = k) \/ cache !! k = Some v ->
  (match map F unc with
   | [] => (cache, cached)
   | _ :: _ =>
       fold_left (record_new cull)
         (zip (zip (map fst (map F unc))
                   (batch_get_embeddings embeddings_create (map snd (map F unc)) 64))
              (map G unc))
         (cache, cached)
   end).1 !! k = Some v.
Proof.
  intros HF HG Hid Hv H. destruct (map F unc) as [|x xs] eqn:E.
  - apply map_eq_nil in E as ->. destruct H as [[u [Hu _]]|H]; [|done].
    by apply elem_of_nil in Hu.
  - rewrite <- E. rewrite (batch_get_embeddings_ok embeddings_create embed create_ok).
    rewrite zip_record_items by done.
    apply fold_record_value; [exact Hid| |].
    + intros item Hi Hk. apply elem_of_map_inv in Hi as [u [Hu ->]]. cbn in *.
      by apply Hv.
    + destruct H as [[u [Hu Hk]]|H]; [left|by right].
      rewrite map_map. subst k.
    exact (elem_of_map_2 (fun x : nat * pystr * pystr => x.2) unc u Hu).
Qed.

Lemma uncached_cache_present (cache : gmap pystr vec) cached unc
    (F : nat * pystr * pystr -> nat * pystr) (G : nat * pystr * pystr -> pystr) k :
  (forall u, F u = (u.1.1, u.1.2)) -> (forall u, G u = u.2) ->
  (forall c, cull c = c) ->
  (exists u, u ∈ unc /\ u.2 = k) \/ is_Some (cache !! k) ->
  is_Some ((match map F unc with
   | [] => (cache, cached)
   | _ :: _ =>
       fold_left (record_new cull)
         (zip (zip (map fst (map F unc))
                   (batch_get_embeddings embeddings_create (map snd (map F unc)) 64))
              (map G unc))
         (cache, cached)
   end).1 !! k).
Proof.
  intros HF HG Hid H. destruct (map F unc) as [|x xs] eqn:E.
  - apply map_eq_nil in E as ->. destruct H as [[u [Hu _]]|H]; [|done].
    by apply elem_of_nil in Hu.
  - rewrite <- E. rewrite (batch_get_embeddings_ok embeddings_create embed create_ok).
    rewrite zip_record_items by done.
    apply fold_record_present; [exact Hid|].
    destruct H as [[u [Hu Hk]]|H]; [left|by right].
    rewrite map_map. subst k.
    exact (elem_of_map_2 (fun x : nat * pystr * pystr => x.2) unc u Hu).
Qed.

(** Whatever [cache.set] culls, the cache after the call holds only
    entries it held before and embeddings of input texts under their
    keys. *)
Lemma get_text_embedding_sound (cache : gmap pystr vec) texts k v :
  (forall c, cull c ⊆ c) ->
  (get_text_embedding get_cache_key embeddings_create cull cache texts).1 !! k = Some v ->
  cache !! k = Some v \/ exists t, t ∈ texts /\ k = get_cache_key t /\ v = embed t.
Proof.
  intros Hc. unfold get_text_embedding, get_cached_embeddings.
  pose proof (classify_unc cache 0 texts) as Hu.
  destruct (classify get_cache_key cache 0 texts) as [cached unc].
  specialize (Hu _ _ eq_refl).
  cbv beta iota zeta.
  match goal with |- context [match ?m with (_, _) => _ end] =>
    destruct m as [c' res] eqn:Em end.
  apply (f_equal fst) in Em. cbn [fst] in *. intros H. rewrite <- Em in H.
  eapply uncached_cache_sound in H;
    [| intros [[? ?] ?]; reflexivity | intros [[? ?] ?]; reflexivity | exact Hc].
  destruct H as [H|(u & Hu' & Hk & Hv)]; [by left|]. right.
  destruct (Hu u Hu') as (Hk' & _ & Hin). exists u.1.2. split; [done|].
  split; [congruence | done].
Qed.

Lemma get_text_embedding_covers (cache : gmap pystr vec) texts t :
  (forall c, cull c = c) ->
  t ∈ texts ->
  is_Some ((get_text_embedding get_cache_key embeddings_create cull cache texts).1
             !! get_cache_key t).
Proof.
  intros Hid Ht. unfold get_text_embedding, get_cached_embeddings.
  pose proof (classify_unc cache 0 texts) as Hu.
  pose proof (classify_covers cache 0 texts) as Hcov.
  destruct (classify get_cache_key cache 0 texts) as [cached unc].
  specialize (Hu _ _ eq_refl). specialize (Hcov _ _ eq_refl t Ht).
  cbv beta iota zeta.
  match goal with |- context [match ?m with (_, _) => _ end] =>
    destruct m as [c' res] eqn:Em end.
  apply (f_equal fst) in Em. cbn [fst] in *. rewrite <- Em.
  apply uncached_cache_present;
    [intros [[? ?] ?]; reflexivity | intros [[? ?] ?]; reflexivity | exact Hid |].
  destruct Hcov as [[e He]|[u [Hu' Hut]]]; [right; by exists e | left].
  exists u. split; [done|]. destruct (Hu u Hu') as (Hk & _). by rewrite Hk, Hut.
Qed.

(** With a cache key injective on the texts and no culling, the cache
    after the call maps the key of every text to the embedding returned
    for it. *)
Lemma get_text_embedding_cache_value (cache : gmap pystr vec) texts t :
  (forall c, cull c = c) ->
  (forall t1 t2, t1 ∈ texts -> t2 ∈ texts -> get_cache_key t1 = get_cache_key t2 -> t1 = t2) ->
  t ∈ texts ->
  (get_text_embedding get_cache_key embeddings_create cull cache texts).1 !! get_cache_key t =
  Some (match cache !! get_cache_key t with Some e => e | None => embed t end).
Proof.
  intros Hid Hinj Ht. unfold get_text_embedding, get_cached_embeddings.
  pose proof (classify_unc cache 0 texts) as Hu.
  pose proof (classify_covers cache 0 texts) as Hcov.
  destruct (classify get_cache_key cache 0 texts) as [cached unc].
  specialize (Hu _ _ eq_refl). specialize (Hcov _ _ eq_refl t Ht).
  cbv beta iota zeta.
  match goal with |- context [match ?m with (_, _) => _ end] =>
    destruct m as [c' res] eqn:Em end.
  apply (f_equal fst) in Em. cbn [fst] in *. rewrite <- Em.
  apply uncached_cache_value;
    [intros [[? ?] ?]; reflexivity | intros [[? ?] ?]; reflexivity | exact Hid | |].
  - intros u Hu' Hk. destruct (Hu u Hu') as (Hk' & Hn & Hin).
    destruct (cache !! get_cache_key t) as [e|] eqn:He; [congruence|].
    f_equal. apply Hinj; [done | done | congruence].
  - destruct Hcov as [[e He]|[u [Hu' Hut]]]; [right; by rewrite He|].
    destruct (Hu u Hu') as (Hk & Hn & _). subst t.
    rewrite <- Hk, Hn. left. by exists u.
Qed.

End Endpoint.

End EmbeddingCache.

Lemma get_text_embedding_hits {vec : Type} (get_cache_key : pystr -> pystr)
    (embeddings_create : list pystr -> list vec) (cull : gmap pystr vec -> gmap pystr vec)
    (cache : gmap pystr vec) texts
    (f : pystr -> vec) :
  (forall t, t ∈ texts -> cache !! get_cache_key t = Some (f t)) ->
  get_text_embedding get_cache_key embeddings_create cull cache texts = (cache, map f texts).
Proof.
  intros Hf. unfold get_text_embedding, get_cached_embeddings.
  rewrite (classify_hits get_cache_key cache 0 texts f Hf). cbn.
  f_equal. apply sorted_result. by rewrite length_map.
Qed.

(** [batch_get_embeddings] cuts the texts into consecutive batches, one
    endpoint call each: for a batch size of at least 1, every batch holds
    between 1 and [batch_size] texts, the batches put back together give the
    texts, and there are [ceil(len(texts) / batch_size)] of them. *)
Theorem batch_get_embeddings_batches (texts : list pystr) (batch_size : nat) :
  (1 <= batch_size)%nat ->
  concat (batches_go batch_size (length texts) texts) = texts /\
  Forall (fun b => 1 <= length b <= batch_size)%nat
    (batches_go batch_size (length texts) texts) /\
  length (batches_go batch_size (length texts) texts) =
    ((length texts + batch_size - 1) / batch_size)%nat.
Proof.
  intros Hs. destruct (batches_go_shape batch_size (length texts) texts Hs) as [Hf Hn];
    [lia|].
  split; [by apply batches_go_concat|]. by split.
Qed.

Lemma batch_get_embeddings_batches_witness :
  (1 <= 2)%nat /\
  concat (batches_go 2 (length [lit "a"; lit "b"; lit "c"; lit "d"; lit "e"])
            [lit "a"; lit "b"; lit "c"; lit "d"; lit "e"]) =
    [lit "a"; lit "b"; lit "c"; lit "d"; lit "e"] /\
  Forall (fun b => 1 <= length b <= 2)%nat
    (batches_go 2 (length [lit "a"; lit "b"; lit "c"; lit "d"; lit "e"])
       [lit "a"; lit "b"; lit "c"; lit "d"; lit "e"]) /\
  length (batches_go 2 (length [lit "a"; lit "b"; lit "c"; lit "d"; lit "e"])
            [lit "a"; lit "b"; lit "c"; lit "d"; lit "e"]) =
    ((length [lit "a"; lit "b"; lit "c"; lit "d"; lit "e"] + 2 - 1) / 2)%nat.
Proof.
  assert (H : (1 <= 2)%nat) by lia.
  split; [exact H|]. exact (batch_get_embeddings_batches _ _ H).
Defined.

(** [get_text_embedding] writes nothing into the cache but the
    embeddings the endpoint returns for its input texts: whatever
    [cache.set] culls, every entry of the cache after the call is an
    entry of the cache before it, or the embedding of an input text under
    that text's key. *)
Theorem get_text_embedding_writes_only_embeddings {vec : Type}
    (get_cache_key : pystr -> pystr) (embeddings_create : list pystr -> list vec)
    (embed : pystr -> vec) (cull : gmap pystr vec -> gmap pystr vec)
    (cache : gmap pystr vec) texts k v :
  (forall batch, embeddings_create batch = map embed batch) ->
  (forall c, cull c ⊆ c) ->
  (get_text_embedding get_cache_key embeddings_create cull cache texts).1 !! k = Some v ->
  cache !! k = Some v \/ exists t, t ∈ texts /\ k = get_cache_key t /\ v = embed t.
Proof.
  intros Hc Hcull. by apply (get_text_embedding_sound get_cache_key embeddings_create cull embed Hc).
Qed.

Lemma get_text_embedding_writes_only_embeddings_witness :
  (forall batch, map len batch = map len batch) /\
  (forall c : gmap pystr Z, delete (lit "a") c ⊆ c) /\
  (get_text_embedding id (map len) (delete (lit "a")) {[lit "a" := 1]} [lit "bb"; lit "a"]).1
    !! lit "bb" = Some 2 /\
  (({[lit "a" := 1]} : gmap pystr Z) !! lit "bb" = Some 2 \/
   exists t, t ∈ [lit "bb"; lit "a"] /\ lit "bb" = id t /\ 2 = len t).
Proof.
  assert (H1 : forall batch, map len batch = map len batch) by reflexivity.
  assert (H2 : forall c : gmap pystr Z, delete (lit "a") c ⊆ c) by (intros c; apply delete_subseteq).
  assert (H3 : (get_text_embedding id (map len) (delete (lit "a")) {[lit "a" := 1]}
                  [lit "bb"; lit "a"]).1 !! lit "bb" = Some 2) by (vm_compute; reflexivity).
  split; [exact H1|]. split; [exact H2|]. split; [exact H3|].
  exact (get_text_embedding_writes_only_embeddings id (map len) len _ _ _ _ _ H1 H2 H3).
Defined.

(** As long as no [cache.set] culls (the cache stays below its size
    limit), and when the endpoint returns one embedding per text it is
    sent, the cache after [get_text_embedding] holds an entry under the
    key of every input text. *)
Theorem get_text_embedding_caches_inputs {vec : Type} (get_cache_key : pystr -> pystr)
    (embeddings_create : list pystr -> list vec) (embed : pystr -> vec)
    (cull : gmap pystr vec -> gmap pystr vec) (cache : gmap pystr vec) texts t :
  (forall batch, embeddings_create batch = map embed batch) ->
  (forall c, cull c = c) ->
  t ∈ texts ->
  is_Some ((get_text_embedding get_cache_key embeddings_create cull cache texts).1
             !! get_cache_key t).
Proof.
  intros Hc Hid Ht. by apply (get_text_embedding_covers get_cache_key embeddings_create cull embed Hc).
Qed.

Lemma get_text_embedding_caches_inputs_witness :
  (forall batch, map len batch = map len batch) /\
  (forall c : gmap pystr Z, (fun c => c) c = c) /\ lit "bb" ∈ [lit "a"; lit "bb"] /\
  is_Some ((get_text_embedding id (map len) (fun c => c) {[lit "a" := 1]} [lit "a"; lit "bb"]).1
             !! id (lit "bb")).
Proof.
  assert (H1 : forall batch, map len batch = map len batch) by reflexivity.
  assert (H2 : forall c : gmap pystr Z, (fun c => c) c = c) by reflexivity.
  assert (H3 : lit "bb" ∈ [lit "a"; lit "bb"]) by (apply elem_of_cons; right; apply elem_of_cons; left; reflexivity).
  split; [exact H1|]. split; [exact H2|]. split; [exact H3|].
  exact (get_text_embedding_caches_inputs id (map len) len _ {[lit "a" := 1]} _ _ H1 H2 H3).
Defined.

(** When the key of every text is already cached, [get_text_embedding]
    needs no endpoint result at all: it leaves the cache as it is and
    returns the cached embeddings in input order. *)
Theorem get_text_embedding_all_cached {vec : Type} (get_cache_key : pystr -> pystr)
    (embeddings_create : list pystr -> list vec) (cull : gmap pystr vec -> gmap pystr vec)
    (cache : gmap pystr vec) texts (f : pystr -> vec) :
  (forall t, t ∈ texts -> cache !! get_cache_key t = Some (f t)) ->
  get_text_embedding get_cache_key embeddings_create cull cache texts = (cache, map f texts).
Proof. apply get_text_embedding_hits. Qed.

Lemma get_text_embedding_all_cached_witness :
  (forall t, t ∈ [lit "a"; lit "a"] ->
     ({[lit "a" := 1]} : gmap pystr Z) !! id t = Some (len t)) /\
  get_text_embedding id (fun _ => []) (delete (lit "a")) {[lit "a" := 1]} [lit "a"; lit "a"] =
    ({[lit "a" := 1]}, map len [lit "a"; lit "a"]).
Proof.
  assert (H : forall t, t ∈ [lit "a"; lit "a"] ->
            ({[lit "a" := 1]} : gmap pystr Z) !! id t = Some (len t)).
  { intros t Ht. repeat (apply elem_of_cons in Ht as [->|Ht]; [reflexivity|]).
    by apply elem_of_nil in Ht. }
  split; [exact H|].
  exact (get_text_embedding_all_cached id (fun _ => []) (delete (lit "a")) _ _ len H).
Defined.

(** As long as no [cache.set] culls, with a cache key injective on the
    texts and an endpoint returning one embedding per text, calling
    [get_text_embedding] a second time on the same texts is served from
    the cache alone: whatever the endpoint would return, it gives the same
    cache state and the same embeddings as the first call. *)
Theorem get_text_embedding_repeat_from_cache {vec : Type}
    (get_cache_key : pystr -> pystr) (embeddings_create embeddings_create' : list pystr -> list vec)
    (embed : pystr -> vec) (cull : gmap pystr vec -> gmap pystr vec) (cache : gmap pystr vec) texts :
  (forall batch, embeddings_create batch = map embed batch) ->
  (forall c, cull c = c) ->
  (forall t1 t2, t1 ∈ texts -> t2 ∈ texts -> get_cache_key t1 = get_cache_key t2 -> t1 = t2) ->
  get_text_embedding get_cache_key embeddings_create' cull
    (get_text_embedding get_cache_key embeddings_create cull cache texts).1 texts =
  get_text_embedding get_cache_key embeddings_create cull cache texts.
Proof.
  intros Hc Hid Hinj.
  pose proof (get_text_embedding_spec get_cache_key embeddings_create embed Hc cull cache texts) as Hys.
  pose proof (fun t => get_text_embedding_cache_value get_cache_key embeddings_create cull embed Hc
                         cache texts t Hid Hinj) as Hv.
  destruct (get_text_embedding get_cache_key embeddings_create cull cache texts) as [c' ys].
  cbn [fst snd] in *. subst ys. by apply get_text_embedding_hits.
Qed.

Lemma get_text_embedding_repeat_from_cache_witness :
  (forall batch, map len batch = map len batch) /\
  (forall c : gmap pystr Z, (fun c => c) c = c) /\
  (forall t1 t2, t1 ∈ [lit "bb"; lit "a"; lit "bb"] -> t2 ∈ [lit "bb"; lit "a"; lit "bb"] ->
     id t1 = id t2 -> t1 = t2) /\
  get_text_embedding id (fun _ => []) (fun c => c)
    (get_text_embedding id (map len) (fun c => c) {[lit "a" := 7]} [lit "bb"; lit "a"; lit "bb"]).1
    [lit "bb"; lit "a"; lit "bb"] =
  get_text_embedding id (map len) (fun c => c) {[lit "a" := 7]} [lit "bb"; lit "a"; lit "bb"].
Proof.
  assert (H1 : forall batch, map len batch = map len batch) by reflexivity.
  assert (H2 : forall c : gmap pystr Z, (fun c => c) c = c) by reflexivity.
  assert (H3 : forall t1 t2, t1 ∈ [lit "bb"; lit "a"; lit "bb"] ->
                 t2 ∈ [lit "bb"; lit "a"; lit "bb"] -> id t1 = id t2 -> t1 = t2)
    by (intros t1 t2 _ _ H; exact H).
  split; [exact H1|]. split; [exact H2|]. split; [exact H3|].
  exact (get_text_embedding_repeat_from_cache id (map len) (fun _ => []) len _ _ _ H1 H2 H3).
Defined.

(* ================================================================== *)
(** * [insert_documents] and [setup_knowledge_base] *)

Section DictFacts.

Context {vec : Type}.

Lemma dict_get_set_eq k v (d : dict vec) : dict_get k (dict_set k v d) = Some v.
Proof.
  induction d as [|[k' v'] d IH]; cbn; [by rewrite bool_decide_true|].
  case_bool_decide; cbn; [by rewrite bool_decide_true|].
  by rewrite bool_decide_false.
Qed.

Lemma dict_get_set_ne k k' v (d : dict vec) :
  k' <> k -> dict_get k (dict_set k' v d) = dict_get k d.
Proof.
  intros Hne. induction d as [|[k'' v'] d IH]; cbn; [by rewrite bool_decide_false|].
  destruct (bool_decide (k'' = k')) eqn:E; cbn.
  - apply bool_decide_eq_true in E. subst k''. by rewrite !bool_decide_false.
  - by rewrite IH.
Qed.

Lemma dict_get_notin k (d : dict vec) : k ∉ map fst d -> dict_get k d = None.
Proof.
  induction d as [|[k' v'] d IH]; cbn; intros Hk; [done|].
  rewrite bool_decide_false; [apply IH|]; intros H; apply Hk; apply elem_of_cons; [by right|left; done].
Qed.

Lemma dict_get_update k (d u : dict vec) :
  NoDup (map fst u) ->
  dict_get k (dict_update d u) =
  match dict_get k u with Some v => Some v | None => dict_get k d end.
Proof.
  unfold dict_update. revert d. induction u as [|[k' v'] u IH]; intros d Hnd; [done|].
  cbn in Hnd. apply NoDup_cons in Hnd as [Hk' Hnd]. cbn [fold_left].
  rewrite IH by done. cbn [dict_get].
  destruct (decide (k' = k)) as [->|Hne].
  - rewrite bool_decide_true by done. rewrite dict_get_notin by done.
    apply dict_get_set_eq.
  - rewrite bool_decide_false by done.
    destruct (dict_get k u); [done|]. by apply dict_get_set_ne.
Qed.

Lemma dict_set_new k v (d : dict vec) : k ∉ map fst d -> dict_set k v d = d ++ [(k, v)].
Proof.
  induction d as [|[k' v'] d IH]; cbn; intros Hk; [done|].
  rewrite bool_decide_false.
  - rewrite IH; [done|]. intros H; apply Hk; apply elem_of_cons; by right.
  - intros ->. apply Hk. by apply elem_of_cons; left.
Qed.

Lemma dict_update_app (d u : dict vec) :
  NoDup (map fst u) -> (forall k, k ∈ map fst u -> k ∉ map fst d) ->
  dict_update d u = d ++ u.
Proof.
  unfold dict_update. revert d. induction u as [|[k v] u IH]; intros d Hnd Hdis.
  - cbn. by rewrite app_nil_r.
  - cbn in Hnd. apply NoDup_cons in Hnd as [Hk Hnd]. cbn [fold_left].
    rewrite dict_set_new by (apply Hdis; cbn; by apply elem_of_cons; left).
    rewrite IH; [by rewrite <- app_assoc | done |].
    intros k' Hk'. rewrite map_app, elem_of_app. intros [H|H].
    + apply (Hdis k'); [cbn; by apply elem_of_cons; right | done].
    + cbn in H. apply elem_of_cons in H as [->|H]; [done | by apply elem_of_nil in H].
Qed.

End DictFacts.

Section KBFacts.

Context {vec : Type}.
Variable get_cache_key : pystr -> pystr.
Variable embeddings_create : list pystr -> list vec.
Variable embed : pystr -> vec.
Hypothesis create_ok : forall batch, embeddings_create batch = map embed batch.
Variable cull : gmap pystr vec -> gmap pystr vec.

Lemma get_text_embedding_consistent (cache : gmap pystr vec) texts :
  (forall t e, cache !! get_cache_key t = Some e -> e = embed t) ->
  (get_text_embedding get_cache_key embeddings_create cull cache texts).2 = map embed texts.
Proof.
  intros Hcons.
  rewrite (get_text_embedding_spec get_cache_key embeddings_create embed create_ok).
  apply map_ext. intros t. destruct (cache !! get_cache_key t) as [e|] eqn:He; [|done].
  by apply Hcons.
Qed.

Lemma build_data_zip (metadata : option (list (dict vec))) i docs :
  build_data metadata i (zip docs (map embed docs)) =
  zip_with (fun j doc => build_item metadata j doc (embed doc)) (seq i (length docs)) docs.
Proof.
  revert i. induction docs as [|d docs IH]; intros i; cbn; [done|]. by rewrite IH.
Qed.

Lemma insert_documents_data (cache : gmap pystr vec) docs metadata :
  (forall t e, cache !! get_cache_key t = Some e -> e = embed t) ->
  (insert_documents get_cache_key embeddings_create cull cache docs metadata).1.2 =
    zip_with (fun j doc => build_item metadata j doc (embed doc)) (seq 0 (length docs)) docs /\
  (insert_documents get_cache_key embeddings_create cull cache docs metadata).2 = length docs.
Proof.
  intros Hcons. unfold insert_documents.
  pose proof (get_text_embedding_consistent cache docs Hcons) as He.
  destruct (get_text_embedding get_cache_key embeddings_create cull cache docs) as [c' es].
  cbn [snd] in He. subst es. cbn [fst snd]. rewrite build_data_zip.
  split; [done|]. by rewrite length_zip_with, length_seq, Nat.min_id.
Qed.

End KBFacts.

Lemma build_data_lookup {vec} (metadata : option (list (dict vec))) n pairs i item :
  build_data metadata n pairs !! i = Some item ->
  exists doc e, item = build_item metadata (n + i) doc e.
Proof.
  revert n i. induction pairs as [|[doc e] pairs IH]; intros n i H; [done|].
  destruct i as [|i]; cbn in H.
  - injection H as <-. exists doc, e. by rewrite Nat.add_0_r.
  - destruct (IH _ _ H) as (doc' & e' & ->). exists doc', e'. f_equal. lia.
Qed.

Lemma build_item_shape {vec} (metadata : option (list (dict vec))) i doc (e : vec) :
  (forall md, metadata_at metadata i = Some md ->
     NoDup (map fst md) /\ (lit "text" ∉ map fst md) /\ (lit "vector" ∉ map fst md)) ->
  build_item metadata i doc e =
  [(lit "text", FJson (JStr doc)); (lit "vector", FVec e)] ++
    default [] (metadata_at metadata i).
Proof.
  intros Hmd. unfold build_item.
  destruct (metadata_at metadata i) as [md|] eqn:E; cbn [default]; [|by rewrite app_nil_r].
  destruct (Hmd md eq_refl) as (Hnd & Ht & Hv).
  apply dict_update_app; [done|].
  intros k Hk Hin. cbn in Hin.
  repeat (apply elem_of_cons in Hin as [->|Hin]; [done|]). by apply elem_of_nil in Hin.
Qed.

Section SetupFacts.

Context {vec : Type}.
Variable metadata : option (list (dict vec)).

Lemma fold_setup k ds (A : list pystr) (B : list (dict vec)) :
  fold_left (setup_step metadata) (zip (seq k (length ds)) ds) (A, B) =
  (A ++ map fst (concat (zip_with (fun i doc =>
          map (fun c => (c, chunk_metadata metadata i c)) (split_text (new_splitter 500 None) doc))
        (seq k (length ds)) ds)),
   B ++ map snd (concat (zip_with (fun i doc =>
          map (fun c => (c, chunk_metadata metadata i c)) (split_text (new_splitter 500 None) doc))
        (seq k (length ds)) ds))).
Proof.
  revert k A B. induction ds as [|d ds IH]; intros k A B.
  - cbn. by rewrite !app_nil_r.
  - cbn [length seq zip zip_with fold_left setup_step concat].
    rewrite IH, !map_app, !map_map, !app_assoc. cbn [fst snd]. by rewrite map_id.
Qed.

Lemma map_setup_pairs {B} (g : pystr * dict vec -> B) (g' : nat -> pystr -> B) k ds :
  (forall i c, g (c, chunk_metadata metadata i c) = g' i c) ->
  map g (concat (zip_with (fun i doc =>
          map (fun c => (c, chunk_metadata metadata i c)) (split_text (new_splitter 500 None) doc))
        (seq k (length ds)) ds)) =
  concat (zip_with (fun i doc => map (g' i) (split_text (new_splitter 500 None) doc))
            (seq k (length ds)) ds).
Proof.
  intros Hg. revert k. induction ds as [|d ds IH]; intros k; [done|].
  cbn [length seq zip_with concat]. rewrite map_app, map_map, IH. f_equal.
  apply map_ext. intros c. apply Hg.
Qed.

Lemma build_data_pairs (embed : pystr -> vec) (pre : list (dict vec))
    (P : list (pystr * dict vec)) :
  build_data (Some (pre ++ map snd P)) (length pre) (zip (map fst P) (map embed (map fst P))) =
  map (fun cm => dict_update [(lit "text", FJson (JStr cm.1)); (lit "vector", FVec (embed cm.1))]
                   cm.2) P.
Proof.
  revert pre. induction P as [|[c m] P IH]; intros pre; [done|].
  cbn [map fst snd zip zip_with build_data]. f_equal.
  - unfold build_item. cbn [metadata_at]. by rewrite list_lookup_middle.
  - replace (pre ++ m :: map snd P) with ((pre ++ [m]) ++ map snd P)
      by by rewrite <- app_assoc.
    replace (S (length pre)) with (length (pre ++ [m])) by (rewrite length_app; cbn; lia).
    apply IH.
Qed.

Lemma chunk_item_shape (embed : pystr -> vec) i c :
  (forall md, metadata_at metadata i = Some md ->
     NoDup (map fst md) /\
     Forall (fun k => k ∉ map fst md) [lit "text"; lit "vector"; lit "doc_id"; lit "chunk_text"]) ->
  dict_update [(lit "text", FJson (JStr c)); (lit "vector", FVec (embed c))]
    (chunk_metadata metadata i c) =
  [(lit "text", FJson (JStr c)); (lit "vector", FVec (embed c));
   (lit "doc_id", FJson (JNum (Z.of_nat i))); (lit "chunk_text", FJson (JStr c))] ++
  default [] (metadata_at metadata i).
Proof.
  intros Hmd. unfold chunk_metadata.
  destruct (metadata_at metadata i) as [md|] eqn:E; cbn [default].
  - destruct (Hmd md eq_refl) as [Hnd Hres].
    rewrite Forall_cons in Hres. destruct Hres as [Ht Hres].
    rewrite Forall_cons in Hres. destruct Hres as [Hv Hres].
    rewrite Forall_cons in Hres. destruct Hres as [Hd Hres].
    rewrite Forall_cons in Hres. destruct Hres as [Hc _].
    rewrite (dict_update_app [(lit "doc_id", _); (lit "chunk_text", _)] md); [| done |].
    2: { intros k Hk Hin. cbn in Hin.
         repeat (apply elem_of_cons in Hin as [->|Hin]; [done|]). by apply elem_of_nil in Hin. }
    rewrite dict_update_app; [done| |].
    + rewrite map_app. apply NoDup_app. split; [|split; [|done]].
      * cbn. apply NoDup_cons. split; [|apply NoDup_singleton].
        intros Hin. apply elem_of_cons in Hin as [Hin|Hin]; [|by apply elem_of_nil in Hin].
        vm_compute in Hin. congruence.
      * intros k Hin. cbn in Hin.
        apply elem_of_cons in Hin as [->|Hin]; [done|].
        apply elem_of_cons in Hin as [->|Hin]; [done|]. by apply elem_of_nil in Hin.
    + intros k Hk Hin. rewrite map_app, elem_of_app in Hk. cbn in Hin.
      destruct Hk as [Hk|Hk].
      * cbn in Hk.
        repeat (apply elem_of_cons in Hk as [->|Hk]; [apply elem_of_cons in Hin as [Hin|Hin];
          [vm_compute in Hin; congruence|]|]);
        try (apply elem_of_cons in Hin as [Hin|Hin]; [vm_compute in Hin; congruence|]);
        try (by apply elem_of_nil in Hin); by apply elem_of_nil in Hk.
      * apply elem_of_cons in Hin as [->|Hin]; [done|].
        apply elem_of_cons in Hin as [->|Hin]; [done|]. by apply elem_of_nil in Hin.
  - rewrite app_nil_r. rewrite dict_update_app; [reflexivity| |].
    + cbn. apply NoDup_cons. split; [|apply NoDup_singleton].
      intros Hin. apply elem_of_cons in Hin as [Hin|Hin]; [|by apply elem_of_nil in Hin].
      vm_compute in Hin. congruence.
    + intros k Hk Hin. cbn in Hk, Hin.
      apply elem_of_cons in Hk as [->|Hk];
        [|apply elem_of_cons in Hk as [->|Hk]; [|by apply elem_of_nil in Hk]];
      (apply elem_of_cons in Hin as [Hin|Hin]; [vm_compute in Hin; congruence|]);
      (apply elem_of_cons in Hin as [Hin|Hin]; [vm_compute in Hin; congruence|]);
      by apply elem_of_nil in Hin.
Qed.

End SetupFacts.

Lemma zip_with_seq_ext {A B} (F G : nat -> A -> B) k (l : list A) :
  (forall i a, F i a = G i a) ->
  zip_with F (seq k (length l)) l = zip_with G (seq k (length l)) l.
Proof.
  intros H. revert k. induction l as [|a l IH]; intros k; cbn; [done|]. by rewrite H, IH.
Qed.

(** [insert_documents] stores one item per document, in order, and
    returns their number: with an endpoint giving one embedding per text
    and a cache holding the embeddings of the texts it has keys for, the
    [i]-th item is [{"text": docs[i], "vector": embedding of docs[i]}]
    followed by the fields of [metadata[i]] when there is one (with
    distinct keys other than ["text"] and ["vector"]). *)
Theorem insert_documents_items {vec : Type} (get_cache_key : pystr -> pystr)
    (embeddings_create : list pystr -> list vec) (embed : pystr -> vec)
    (cull : gmap pystr vec -> gmap pystr vec) (cache : gmap pystr vec) docs
    (metadata : option (list (dict vec))) :
  (forall batch, embeddings_create batch = map embed batch) ->
  (forall t e, cache !! get_cache_key t = Some e -> e = embed t) ->
  (forall i md, metadata_at metadata i = Some md ->
     NoDup (map fst md) /\ (lit "text" ∉ map fst md) /\ (lit "vector" ∉ map fst md)) ->
  (insert_documents get_cache_key embeddings_create cull cache docs metadata).1.2 =
    zip_with (fun i doc => [(lit "text", FJson (JStr doc)); (lit "vector", FVec (embed doc))] ++
                           default [] (metadata_at metadata i))
      (seq 0 (length docs)) docs /\
  (insert_documents get_cache_key embeddings_create cull cache docs metadata).2 = length docs.
Proof.
  intros Hc Hcons Hmd.
  destruct (insert_documents_data get_cache_key embeddings_create embed Hc cull cache docs metadata
              Hcons) as [Hd Hn].
  split; [|exact Hn]. rewrite Hd. apply zip_with_seq_ext.
  intros i doc. apply build_item_shape. intros md. apply Hmd.
Qed.

Lemma insert_documents_items_witness :
  (forall batch, map len batch = map len batch) /\
  (forall t e, (∅ : gmap pystr Z) !! id t = Some e -> e = len t) /\
  (forall i md, metadata_at (Some [[(lit "year", @FJson Z (JNum 1956))]]) i = Some md ->
     NoDup (map fst md) /\ (lit "text" ∉ map fst md) /\ (lit "vector" ∉ map fst md)) /\
  (insert_documents id (map len) (fun c => c) ∅ [lit "ab"; lit "c"] (Some [[(lit "year", @FJson Z (JNum 1956))]])).1.2 =
    zip_with (fun i doc => [(lit "text", FJson (JStr doc)); (lit "vector", FVec (len doc))] ++
                           default [] (metadata_at (Some [[(lit "year", @FJson Z (JNum 1956))]]) i))
      (seq 0 (length [lit "ab"; lit "c"])) [lit "ab"; lit "c"] /\
  (insert_documents id (map len) (fun c => c) ∅ [lit "ab"; lit "c"] (Some [[(lit "year", @FJson Z (JNum 1956))]])).2 =
    length [lit "ab"; lit "c"].
Proof.
  assert (H1 : forall batch, map len batch = map len batch) by reflexivity.
  assert (H2 : forall t e, (∅ : gmap pystr Z) !! id t = Some e -> e = len t)
    by (intros t e H; rewrite lookup_empty in H; discriminate).
  assert (H3 : forall i md, metadata_at (Some [[(lit "year", @FJson Z (JNum 1956))]]) i = Some md ->
     NoDup (map fst md) /\ (lit "text" ∉ map fst md) /\ (lit "vector" ∉ map fst md)).
  { intros [|i] md H; cbn in H; [|destruct i; discriminate].
    injection H as <-. split; [|split]; apply (bool_decide_unpack _); vm_compute; exact I. }
  split; [exact H1|]. split; [exact H2|]. split; [exact H3|].
  exact (insert_documents_items id (map len) len (fun c => c) ∅ _ _ H1 H2 H3).
Defined.

(** The fields of [metadata[i]] take precedence in the [i]-th item of
    [insert_documents]: a metadata field named ["text"] or ["vector"]
    replaces the document text or its embedding in the stored item. *)
Theorem insert_documents_metadata_wins {vec : Type} (get_cache_key : pystr -> pystr)
    (embeddings_create : list pystr -> list vec) (cull : gmap pystr vec -> gmap pystr vec)
    (cache : gmap pystr vec) docs
    (metadata : option (list (dict vec))) i md item k v :
  metadata_at metadata i = Some md -> NoDup (map fst md) -> dict_get k md = Some v ->
  (insert_documents get_cache_key embeddings_create cull cache docs metadata).1.2 !! i = Some item ->
  dict_get k item = Some v.
Proof.
  intros Hm Hnd Hv Hi. unfold insert_documents in Hi.
  destruct (get_text_embedding get_cache_key embeddings_create cull cache docs) as [c' es].
  cbn [fst] in Hi. apply build_data_lookup in Hi as (doc & e & ->).
  unfold build_item. cbn [Nat.add]. rewrite Hm, dict_get_update by done. by rewrite Hv.
Qed.

Lemma insert_documents_metadata_wins_witness :
  metadata_at (Some [[(lit "text", @FJson Z (JStr (lit "x")))]]) 0%nat =
    Some [(lit "text", @FJson Z (JStr (lit "x")))] /\
  NoDup (map fst [(lit "text", @FJson Z (JStr (lit "x")))]) /\
  dict_get (lit "text") [(lit "text", @FJson Z (JStr (lit "x")))] = Some (@FJson Z (JStr (lit "x"))) /\
  (insert_documents id (map len) (fun c => c) ∅ [lit "abc"] (Some [[(lit "text", @FJson Z (JStr (lit "x")))]])).1.2 !! 0%nat =
    Some [(lit "text", @FJson Z (JStr (lit "x"))); (lit "vector", FVec 3)] /\
  dict_get (lit "text") [(lit "text", @FJson Z (JStr (lit "x"))); (lit "vector", FVec 3)] =
    Some (@FJson Z (JStr (lit "x"))).
Proof.
  assert (H1 : metadata_at (Some [[(lit "text", @FJson Z (JStr (lit "x")))]]) 0%nat =
                 Some [(lit "text", @FJson Z (JStr (lit "x")))]) by reflexivity.
  assert (H2 : NoDup (map fst [(lit "text", @FJson Z (JStr (lit "x")))]))
    by (apply (bool_decide_unpack _); vm_compute; exact I).
  assert (H3 : dict_get (lit "text") [(lit "text", @FJson Z (JStr (lit "x")))] =
                 Some (@FJson Z (JStr (lit "x")))) by reflexivity.
  assert (H4 : (insert_documents id (map len) (fun c => c) ∅ [lit "abc"]
                  (Some [[(lit "text", @FJson Z (JStr (lit "x")))]])).1.2 !! 0%nat =
               Some [(lit "text", @FJson Z (JStr (lit "x"))); (lit "vector", FVec 3)])
    by (vm_compute; reflexivity).
  split; [exact H1|]. split; [exact H2|]. split; [exact H3|]. split; [exact H4|].
  exact (insert_documents_metadata_wins id (map len) (fun c => c) ∅ _ _ 0%nat _ _ _ _ H1 H2 H3 H4).
Defined.

(** [setup_knowledge_base] stores, document after document, one item per
    chunk of [RecursiveTextSplitter(chunk_size=500).split_text(doc)]: with
    an endpoint giving one embedding per text, a cache holding the
    embeddings of the texts it has keys for, and metadata dicts with
    distinct keys other than ["text"], ["vector"], ["doc_id"] and
    ["chunk_text"], the item of chunk [c] of document [i] is
    [{"text": c, "vector": embedding of c, "doc_id": i, "chunk_text": c}]
    followed by the fields of [metadata[i]]. *)
Theorem setup_knowledge_base_items {vec : Type} (get_cache_key : pystr -> pystr)
    (embeddings_create : list pystr -> list vec) (embed : pystr -> vec)
    (cull : gmap pystr vec -> gmap pystr vec) (cache : gmap pystr vec) documents
    (metadata : option (list (dict vec))) :
  (forall batch, embeddings_create batch = map embed batch) ->
  (forall t e, cache !! get_cache_key t = Some e -> e = embed t) ->
  (forall i md, metadata_at metadata i = Some md ->
     NoDup (map fst md) /\
     Forall (fun k => k ∉ map fst md) [lit "text"; lit "vector"; lit "doc_id"; lit "chunk_text"]) ->
  (setup_knowledge_base get_cache_key embeddings_create cull cache documents metadata).1.2 =
  concat (zip_with (fun i doc =>
    map (fun c => [(lit "text", FJson (JStr c)); (lit "vector", FVec (embed c));
                   (lit "doc_id", FJson (JNum (Z.of_nat i))); (lit "chunk_text", FJson (JStr c))] ++
                  default [] (metadata_at metadata i))
        (split_text (new_splitter 500 None) doc))
    (seq 0 (length documents)) documents).
Proof.
  intros Hc Hcons Hmd. unfold setup_knowledge_base. rewrite fold_setup. cbn [app].
  match goal with |- context [insert_documents _ _ _ _ (map fst ?P) (Some (map snd ?P))] =>
    set (Q := P) end.
  unfold insert_documents.
  pose proof (get_text_embedding_consistent get_cache_key embeddings_create embed Hc cull cache
                (map fst Q) Hcons) as He.
  destruct (get_text_embedding get_cache_key embeddings_create cull cache (map fst Q)) as [c' es].
  cbn [snd] in He. subst es. cbn [fst].
  pose proof (build_data_pairs embed [] Q) as Hb. cbn [app length] in Hb. rewrite Hb.
  subst Q. apply map_setup_pairs.
  intros i c. cbn [fst snd]. apply chunk_item_shape. intros md. apply Hmd.
Qed.

Lemma setup_knowledge_base_items_witness :
  (forall batch, map len batch = map len batch) /\
  (forall t e, (∅ : gmap pystr Z) !! id t = Some e -> e = len t) /\
  (forall i md, metadata_at (Some [[(lit "year", @FJson Z (JNum 1956))]]) i = Some md ->
     NoDup (map fst md) /\
     Forall (fun k => k ∉ map fst md) [lit "text"; lit "vector"; lit "doc_id"; lit "chunk_text"]) /\
  (setup_knowledge_base id (map len) (fun c => c) ∅ [lit " ab "; lit "c d"]
     (Some [[(lit "year", @FJson Z (JNum 1956))]])).1.2 =
  concat (zip_with (fun i doc =>
    map (fun c => [(lit "text", FJson (JStr c)); (lit "vector", FVec (len c));
                   (lit "doc_id", FJson (JNum (Z.of_nat i))); (lit "chunk_text", FJson (JStr c))] ++
                  default [] (metadata_at (Some [[(lit "year", @FJson Z (JNum 1956))]]) i))
        (split_text (new_splitter 500 None) doc))
    (seq 0 (length [lit " ab "; lit "c d"])) [lit " ab "; lit "c d"]).
Proof.
  assert (H1 : forall batch, map len batch = map len batch) by reflexivity.
  assert (H2 : forall t e, (∅ : gmap pystr Z) !! id t = Some e -> e = len t)
    by (intros t e H; rewrite lookup_empty in H; discriminate).
  assert (H3 : forall i md, metadata_at (Some [[(lit "year", @FJson Z (JNum 1956))]]) i = Some md ->
     NoDup (map fst md) /\
     Forall (fun k => k ∉ map fst md) [lit "text"; lit "vector"; lit "doc_id"; lit "chunk_text"]).
  { intros [|i] md H; cbn in H; [|destruct i; discriminate].
    injection H as <-. split; apply (bool_decide_unpack _); vm_compute; exact I. }
  split; [exact H1|]. split; [exact H2|]. split; [exact H3|].
  exact (setup_knowledge_base_items id (map len) len (fun c => c) ∅ _ _ H1 H2 H3).
Defined.

(* ================================================================== *)
(** * More properties of the session *)

Section SessionShape.

Variable retrieve : nat -> pystr -> Z -> list passage.
Variable chat : nat -> chat_req -> pystr.
Variable json_loads : pystr -> option json.

Lemma keep_unseen_sub seen rs u seen' :
  keep_unseen seen rs = (u, seen') -> forall p, p ∈ u -> p ∈ rs.
Proof.
  revert seen u seen'. induction rs as [|r rs IH]; intros seen u seen' H p Hp; cbn in H.
  - injection H as <- _. by apply elem_of_nil in Hp.
  - case_bool_decide.
    + apply elem_of_cons; right. eapply IH; eauto.
    + destruct (keep_unseen (seen ++ [text r]) rs) as [u1 s1] eqn:Hk.
      injection H as <- _. apply elem_of_cons in Hp as [->|Hp]; apply elem_of_cons; [by left|].
      right. eapply IH; eauto.
Qed.

Lemma searched_in_app n0 evs evs' p :
  searched_in retrieve n0 evs p -> searched_in retrieve n0 (evs ++ evs') p.
Proof.
  intros (n & s & l & Hle & Hn & Hp). exists n, s, l. split; [done|]. split; [|done].
  by apply lookup_app_l_Some.
Qed.

Lemma searched_in_le n1 n0 evs p :
  (n1 <= n0)%nat -> searched_in retrieve n0 evs p -> searched_in retrieve n1 evs p.
Proof.
  intros H01 (n & s & l & Hle & Hn & Hp). exists n, s, l. split; [lia|]. by split.
Qed.

Lemma search_each_shape st seen qs st' res :
  search_each retrieve st seen qs = Ok (st', res) ->
  exists evs, events st' = events st ++ evs /\
    (forall v l, Search v l ∈ evs -> l = 3 /\ v ∈ qs /\ exists s, v = JStr s) /\
    (forall p, p ∈ res -> searched_in retrieve (length (events st)) (events st') p).
Proof.
  revert st seen res. induction qs as [|q qs IH]; intros st seen res H; cbn in H.
  - injection H as <- <-. exists []. rewrite app_nil_r.
    split; [done|]. split; [intros ? ? Hx | intros ? Hx]; by apply elem_of_nil in Hx.
  - destruct q as [| | |s| |]; cbn in H; try discriminate.
    destruct (keep_unseen seen (retrieve (length (events st)) s 3)) as [u seen1] eqn:Hk.
    inv_bind H as [st2 rest] Hm0. injection H as <- <-.
    destruct (IH _ _ _ Hm0) as (evs & He & Hl & Hp). cbn in He.
    exists (Search (JStr s) 3 :: evs). split; [by rewrite He, <- app_assoc|]. split.
    + intros v l Hx. apply elem_of_cons in Hx as [Hx|Hx].
      * injection Hx as -> ->. split; [done|]. split; [by apply elem_of_cons; left|].
        by exists s.
      * destruct (Hl v l Hx) as (-> & Hv & Hs). split; [done|]. split; [|done].
        by apply elem_of_cons; right.
    + intros p Hpr. apply elem_of_app in Hpr as [Hpr|Hpr].
      2: { eapply searched_in_le; [|by apply Hp].
           unfold log; cbn [events]; rewrite length_app; lia. }
      rewrite He. exists (length (events st)), s, 3. split; [done|]. split.
      * rewrite <- app_assoc. cbn [app]. by rewrite list_lookup_middle.
      * eapply keep_unseen_sub; eauto.
Qed.

Lemma refined_search_shape st refl prev st' new :
  refined_search retrieve st refl prev = Ok (st', new) ->
  exists evs, events st' = events st ++ evs /\
    (forall v l, Search v l ∈ evs -> l = 3 /\ exists s, v = JStr s /\ s <> []) /\
    (forall p, p ∈ new -> searched_in retrieve (length (events st)) (events st') p).
Proof.
  unfold refined_search. destruct (search_queries refl) as [|q0 qs].
  - intros H. injection H as <- <-. exists []. rewrite app_nil_r. split; [done|].
    split; [intros ? ? Hx | intros ? Hx]; by apply elem_of_nil in Hx.
  - intros H. inv_bind H as [[|q1 nq] h] Hm.
    + injection H as <- <-. exists []. rewrite app_nil_r. split; [done|].
      split; [intros ? ? Hx | intros ? Hx]; by apply elem_of_nil in Hx.
    + apply filter_new_spec in Hm as (_ & _ & Hq).
      destruct (search_each_shape _ _ _ _ _ H) as (evs & He & Hl & Hp).
      exists evs. split; [exact He|]. split; [|exact Hp].
      intros v l Hx. destruct (Hl v l Hx) as (-> & Hv & [s ->]). split; [done|].
      exists s. split; [done|]. intros ->.
      destruct (Hq _ Hv) as (_ & Ht & _). discriminate.
Qed.

Lemma iterate_shape fuel it st q ans all hist st' ans' all' hist' :
  iterate retrieve chat json_loads fuel it st q ans all hist = Ok (st', ans', all', hist') ->
  exists recs new evs,
    hist' = hist ++ recs /\ all' = all ++ new /\ events st' = events st ++ evs /\
    map it_iteration recs = map (fun k => it + Z.of_nat k) (seq 0 (length recs)) /\
    Sorted lt (map it_search_results_count recs) /\
    Forall (fun r => length all <= it_search_results_count r <= length all')%nat recs /\
    (forall r rs, recs = r :: rs -> it_search_results_count r = length all) /\
    (forall v l, Search v l ∈ evs -> l = 3 /\ exists s, v = JStr s /\ s <> []) /\
    (forall p, p ∈ new -> searched_in retrieve (length (events st)) (events st') p).
Proof.
  revert it st ans all hist. induction fuel as [|fuel IH]; intros it st ans all hist H; cbn in H.
  - injection H as <- <- <- <-. exists [], [], []. rewrite !app_nil_r.
    split; [done|]. split; [done|]. split; [done|]. split; [done|]. split; [constructor|].
    split; [constructor|]. split; [intros r rs Hr; discriminate|].
    split; [intros v l Hx | intros p Hx]; by apply elem_of_nil in Hx.
  - match type of H with context [hist ++ [?r]] => set (r0 := r) in * end.
    assert (Hn0 : map it_iteration [r0] = map (fun k => it + Z.of_nat k) (seq 0 (length [r0]))).
    { cbn. f_equal. lia. }
    assert (Hc0 : it_search_results_count r0 = length all) by done.
    destruct (is_complete _).
    + injection H as <- <- <- <-. exists [r0], [], [Chat (Reflect q ans (length all))].
      rewrite app_nil_r. split; [done|]. split; [done|]. split; [done|]. split; [done|].
      split; [repeat constructor|]. split; [constructor; [lia | constructor]|].
      split; [by intros r rs [= <- _]|].
      split; [intros v l Hx | intros p Hx]; [|by apply elem_of_nil in Hx].
      apply elem_of_cons in Hx as [Hx|Hx]; [discriminate | by apply elem_of_nil in Hx].
    + inv_bind H as [st2 new] Hm.
      destruct (refined_search_shape _ _ _ _ _ Hm) as (evs2 & He2 & Hl2 & Hp2).
      destruct new as [|p ps].
      * injection H as <- <- <- <-.
        exists [r0], [], ([Chat (Reflect q ans (length all))] ++ evs2).
        rewrite app_nil_r. split; [done|]. split; [done|].
        split; [rewrite He2; cbn; by rewrite <- app_assoc|]. split; [done|].
        split; [repeat constructor|]. split; [constructor; [lia | constructor]|].
        split; [by intros r rs [= <- _]|].
        split; [intros v l Hx | intros p Hx]; [|by apply elem_of_nil in Hx].
        apply elem_of_app in Hx as [Hx|Hx]; [|by apply Hl2].
        apply elem_of_cons in Hx as [Hx|Hx]; [discriminate | by apply elem_of_nil in Hx].
      * destruct (IH _ _ _ _ _ H) as (recs & new & evs & Hh & Ha & He & Hn & Hs & Hf & Hhd & Hl & Hp).
        exists (r0 :: recs), ((p :: ps) ++ new),
          ([Chat (Reflect q ans (length all))] ++ evs2 ++
           [Chat (ImprovedAnswer q (all ++ p :: ps) it)] ++ evs).
        split; [by rewrite Hh, <- app_assoc|].
        split; [by rewrite Ha, <- app_assoc|].
        split; [rewrite He; cbn; rewrite He2; cbn; by rewrite <- !app_assoc|].
        split.
        { cbn [map seq length]. f_equal; [cbn; lia|]. rewrite Hn.
          rewrite <- seq_shift, map_map. apply map_ext. intros k. lia. }
        split.
        { cbn [map]. constructor; [exact Hs|]. destruct recs as [|r1 rs]; constructor.
          rewrite (Hhd r1 rs eq_refl), Hc0, length_app. cbn. lia. }
        split.
        { constructor.
          - rewrite Hc0, Ha, !length_app. lia.
          - eapply Forall_impl; [exact Hf|]. intros r Hr. rewrite length_app in Hr. lia. }
        split; [by intros r rs [= <- _]|].
        split.
        { intros v l Hx. apply elem_of_app in Hx as [Hx|Hx].
          - apply elem_of_cons in Hx as [Hx|Hx]; [discriminate | by apply elem_of_nil in Hx].
          - apply elem_of_app in Hx as [Hx|Hx]; [by apply Hl2|].
            apply elem_of_app in Hx as [Hx|Hx]; [|by apply Hl].
            apply elem_of_cons in Hx as [Hx|Hx]; [discriminate | by apply elem_of_nil in Hx]. }
        intros p' Hx. apply elem_of_app in Hx as [Hx|Hx].
        2: { eapply searched_in_le; [|by apply Hp].
             unfold log; cbn [events]; rewrite !length_app, He2.
             unfold log; cbn [events]; rewrite !length_app; lia. }
        rewrite He. cbn. rewrite <- app_assoc. apply searched_in_app.
        eapply searched_in_le; [|by apply Hp2].
        unfold log; cbn [events]; rewrite length_app; lia.
Qed.

End SessionShape.

Lemma query_shape {retrieve : nat -> pystr -> Z -> list passage} {chat : nat -> chat_req -> pystr}
    {json_loads : pystr -> option json} max st0 q st' fr :
  query retrieve chat json_loads max st0 q = Ok (st', fr) ->
  exists recs new evs,
    iteration_history fr = recs /\ iterations fr = length recs /\
    all_search_results fr = retrieve (length (events st0)) q 5 ++ new /\
    total_search_results fr = length (all_search_results fr) /\
    events st' = events st0 ++
      [Search (JStr q) 5; Chat (InitialAnswer q (retrieve (length (events st0)) q 5))] ++ evs /\
    map it_iteration recs = map (fun k => 1 + Z.of_nat k) (seq 0 (length recs)) /\
    Sorted lt (map it_search_results_count recs) /\
    Forall (fun r => length (retrieve (length (events st0)) q 5%Z) <= it_search_results_count r
                     <= total_search_results fr)%nat recs /\
    (forall v l, Search v l ∈ evs -> l = 3 /\ exists s, v = JStr s /\ s <> []) /\
    (forall p, p ∈ new -> searched_in retrieve (length (events st0)) (events st') p).
Proof.
  rewrite query_eq. cbv zeta. intros H.
  inv_bind H as [[[st2 ans] all] hist] Hm. injection H as <- <-.
  destruct (iterate_shape _ _ _ _ _ _ _ _ _ _ _ _ _ _ Hm)
    as (recs & new & evs & -> & -> & He & Hn & Hs & Hf & _ & Hl & Hp).
  exists recs, new, evs. cbn [iteration_history iterations all_search_results total_search_results].
  split; [done|]. split; [done|]. split; [done|]. split; [done|].
  split; [rewrite He; cbn; by rewrite <- app_assoc|]. split; [exact Hn|].
  split; [exact Hs|]. split; [exact Hf|]. split; [exact Hl|].
  intros p Hx. eapply searched_in_le; [|by apply Hp]. cbn [events]. rewrite length_app. lia.
Qed.

Lemma map_seq_succ (n : nat) :
  map (fun k => 1 + Z.of_nat k) (seq 0 n) = map Z.of_nat (seq 1 n).
Proof. rewrite <- seq_shift, map_map. apply map_ext. intros k. lia. Qed.

(** The iteration records of a session are numbered 1, 2, ..., n in
    order, n being the [iterations] count of the result. *)
Theorem session_iterations_numbered {retrieve : nat -> pystr -> Z -> list passage}
    {chat : nat -> chat_req -> pystr} {json_loads : pystr -> option json} max st0 q st' fr :
  query retrieve chat json_loads max st0 q = Ok (st', fr) ->
  map it_iteration (iteration_history fr) = map Z.of_nat (seq 1 (iterations fr)).
Proof.
  intros H. destruct (query_shape _ _ _ _ _ H) as (recs & _ & _ & -> & -> & _ & _ & _ & Hn & _).
  by rewrite Hn, map_seq_succ.
Qed.

Lemma session_iterations_numbered_witness :
  exists st fr,
    query fresh_retrieve counter_chat echo_loads 2 (mk_rag [] []) (lit "q") = Ok (st, fr) /\
    map it_iteration (iteration_history fr) = map Z.of_nat (seq 1 (iterations fr)).
Proof.
  eexists _, _. split; [eval_eq|].
  eapply (@session_iterations_numbered fresh_retrieve counter_chat echo_loads 2 (mk_rag [] []) (lit "q")). eval_eq.
Defined.

(** The evidence only grows during a session: the [search_results_count]
    of the iteration records is strictly increasing, never below the
    number of initial search results and never above the final
    [total_search_results]. *)
Theorem session_evidence_counts_increase {retrieve : nat -> pystr -> Z -> list passage}
    {chat : nat -> chat_req -> pystr} {json_loads : pystr -> option json} max st0 q st' fr :
  query retrieve chat json_loads max st0 q = Ok (st', fr) ->
  Sorted lt (map it_search_results_count (iteration_history fr)) /\
  Forall (fun r => length (retrieve (length (events st0)) q 5%Z) <= it_search_results_count r
                   <= total_search_results fr)%nat (iteration_history fr).
Proof.
  intros H. destruct (query_shape _ _ _ _ _ H) as (recs & _ & _ & -> & _ & _ & _ & _ & _ & Hs & Hf & _ & _).
  by split.
Qed.

Lemma session_evidence_counts_increase_witness :
  exists st fr,
    query fresh_retrieve counter_chat echo_loads 2 (mk_rag [] []) (lit "q") = Ok (st, fr) /\
    Sorted lt (map it_search_results_count (iteration_history fr)) /\
    Forall (fun r => length (fresh_retrieve (length (events (mk_rag [] []))) (lit "q") 5%Z)
                     <= it_search_results_count r <= total_search_results fr)%nat
      (iteration_history fr).
Proof.
  eexists _, _. split; [eval_eq|].
  eapply (@session_evidence_counts_increase fresh_retrieve counter_chat echo_loads 2 (mk_rag [] []) (lit "q")). eval_eq.
Defined.

(** The final evidence starts with the results of the initial search, in
    their order, and every passage in it was returned by one of the
    searches of this session: a [Search] logged after the events the
    state held when [query] was called. *)
Theorem session_evidence_provenance {retrieve : nat -> pystr -> Z -> list passage}
    {chat : nat -> chat_req -> pystr} {json_loads : pystr -> option json} max st0 q st' fr :
  query retrieve chat json_loads max st0 q = Ok (st', fr) ->
  (exists rest, all_search_results fr = retrieve (length (events st0)) q 5 ++ rest) /\
  (forall p, p ∈ all_search_results fr ->
     searched_in retrieve (length (events st0)) (events st') p).
Proof.
  intros H.
  destruct (query_shape _ _ _ _ _ H) as (recs & new & evs & _ & _ & Ha & _ & He & _ & _ & _ & _ & Hp).
  split; [by exists new|]. rewrite Ha. intros p Hx. apply elem_of_app in Hx as [Hx|Hx]; [|by apply Hp].
  exists (length (events st0)), q, 5. split; [done|]. split; [|done].
  rewrite He. cbn [app]. by rewrite list_lookup_middle.
Qed.

Lemma session_evidence_provenance_witness :
  exists st fr,
    query fresh_retrieve counter_chat echo_loads 2 (mk_rag [] []) (lit "q") = Ok (st, fr) /\
    (exists rest, all_search_results fr =
       fresh_retrieve (length (events (mk_rag [] []))) (lit "q") 5 ++ rest) /\
    (forall p, p ∈ all_search_results fr ->
       searched_in fresh_retrieve (length (events (mk_rag [] []))) (events st) p).
Proof.
  eexists _, _. split; [eval_eq|].
  eapply (@session_evidence_provenance fresh_retrieve counter_chat echo_loads 2 (mk_rag [] []) (lit "q")). eval_eq.
Defined.

(** A session's first retrieval is the question itself with [limit=5];
    every later one is a refinement query, a non-empty string, with
    [limit=3]. *)
Theorem session_search_calls {retrieve : nat -> pystr -> Z -> list passage}
    {chat : nat -> chat_req -> pystr} {json_loads : pystr -> option json} max st0 q st' fr :
  query retrieve chat json_loads max st0 q = Ok (st', fr) ->
  exists evs, events st' = events st0 ++ Search (JStr q) 5 :: evs /\
    forall v l, Search v l ∈ evs -> l = 3 /\ exists s, v = JStr s /\ s <> [].
Proof.
  intros H.
  destruct (query_shape _ _ _ _ _ H) as (recs & new & evs & _ & _ & _ & _ & He & _ & _ & _ & Hl & _).
  exists (Chat (InitialAnswer q (retrieve (length (events st0)) q 5)) :: evs).
  split; [exact He|]. intros v l Hx. apply elem_of_cons in Hx as [Hx|Hx]; [discriminate|].
  by apply Hl.
Qed.

Lemma session_search_calls_witness :
  exists st fr,
    query fresh_retrieve counter_chat echo_loads 2 (mk_rag [] []) (lit "q") = Ok (st, fr) /\
    exists evs, events st = events (mk_rag [] []) ++ Search (JStr (lit "q")) 5 :: evs /\
      forall v l, Search v l ∈ evs -> l = 3 /\ exists s, v = JStr s /\ s <> [].
Proof.
  eexists _, _. split; [eval_eq|].
  eapply (@session_search_calls fresh_retrieve counter_chat echo_loads 2 (mk_rag [] []) (lit "q")). eval_eq.
Defined.

(* ================================================================== *)
(** * The fence cleaning of [reflect_on_answer] *)

Lemma lstrip_app_spaces s ws :
  Forall (fun c => is_space c = true) ws ->
  lstrip (s ++ ws) = match lstrip s with [] => [] | _ => lstrip s ++ ws end.
Proof.
  intros Hws. induction s as [|c s IH]; cbn.
  - rewrite <- (app_nil_r ws), lstrip_spaces by done. done.
  - destruct (is_space c); [exact IH|done].
Qed.

Lemma strip_wrap ws1 s ws2 :
  Forall (fun c => is_space c = true) ws1 -> Forall (fun c => is_space c = true) ws2 ->
  strip (ws1 ++ s ++ ws2) = strip s.
Proof.
  intros H1 H2. unfold strip. rewrite lstrip_spaces by done. rewrite lstrip_app_spaces by done.
  destruct (lstrip s) as [|c t] eqn:E; [done|].
  rewrite rev_app_distr, lstrip_spaces; [done|].
  by apply Forall_rev.
Qed.

Lemma strip_ends a y b :
  is_space a = false -> is_space b = false -> strip (a :: y ++ [b]) = a :: y ++ [b].
Proof.
  intros Ha Hb. unfold strip. cbn [lstrip]. rewrite Ha.
  change (a :: y ++ [b]) with ((a :: y) ++ [b]). rewrite rev_unit. cbn [lstrip].
  rewrite Hb, <- rev_unit, rev_involutive. done.
Qed.

Lemma strip_fenced (m : pystr) :
  strip (lit "```json" ++ m ++ lit "```") = lit "```json" ++ m ++ lit "```".
Proof.
  assert (E : lit "```json" ++ m ++ lit "```" =
              96 :: ([96; 96; 106; 115; 111; 110] ++ m ++ [96; 96]) ++ [96]).
  { change (lit "```json") with [96; 96; 96; 106; 115; 111; 110].
    change (lit "```") with [96; 96; 96]. cbn [app]. by rewrite <- !app_assoc. }
  rewrite E. by apply strip_ends.
Qed.

(** The fence cleaning of [reflect_on_answer] recovers a JSON payload
    wrapped in a fenced block: for a payload [p] without surrounding
    whitespace, whitespace [w1 .. w4] around the fences is dropped and
    [clean_fences (w1 ++ "```json" ++ w2 ++ p ++ w3 ++ "```" ++ w4) = p]. *)
Theorem clean_fences_unwraps ws1 ws2 ws3 ws4 p :
  Forall (fun c => is_space c = true) ws1 -> Forall (fun c => is_space c = true) ws2 ->
  Forall (fun c => is_space c = true) ws3 -> Forall (fun c => is_space c = true) ws4 ->
  strip p = p ->
  clean_fences (ws1 ++ lit "```json" ++ ws2 ++ p ++ ws3 ++ lit "```" ++ ws4) = p.
Proof.
  intros H1 H2 H3 H4 Hp. unfold clean_fences. cbv zeta.
  set (m := ws2 ++ p ++ ws3).
  replace (ws1 ++ lit "```json" ++ ws2 ++ p ++ ws3 ++ lit "```" ++ ws4)
    with (ws1 ++ (lit "```json" ++ m ++ lit "```") ++ ws4)
    by (subst m; by rewrite <- !app_assoc).
  rewrite strip_wrap, strip_fenced by done.
  unfold startswith. rewrite bool_decide_true by apply take_app_length.
  change 7%nat with (length (lit "```json")). rewrite drop_app_length.
  unfold endswith.
  rewrite (bool_decide_true (length (lit "```") <= length (m ++ lit "```"))%nat)
    by (rewrite length_app; lia).
  replace (length (m ++ lit "```") - length (lit "```"))%nat with (length m)
    by (rewrite length_app; lia).
  rewrite drop_app_length, bool_decide_true by done. cbn [andb].
  change 3%nat with (length (lit "```")).
  replace (length (m ++ lit "```") - length (lit "```"))%nat with (length m)
    by (rewrite length_app; lia).
  rewrite take_app_length. subst m. by rewrite strip_wrap.
Qed.

Lemma clean_fences_unwraps_witness :
  Forall (fun c => is_space c = true) [10] /\ Forall (fun c => is_space c = true) [10; 32] /\
  Forall (fun c => is_space c = true) [10] /\ Forall (fun c => is_space c = true) [] /\
  strip (lit "{}") = lit "{}" /\
  clean_fences ([10] ++ lit "```json" ++ [10; 32] ++ lit "{}" ++ [10] ++ lit "```" ++ []) = lit "{}".
Proof.
  assert (H1 : Forall (fun c => is_space c = true) [10]) by repeat constructor.
  assert (H2 : Forall (fun c => is_space c = true) [10; 32]) by repeat constructor.
  assert (H4 : Forall (fun c => is_space c = true) []) by constructor.
  assert (Hp : strip (lit "{}") = lit "{}") by reflexivity.
  split; [exact H1|]. split; [exact H2|]. split; [exact H1|]. split; [exact H4|].
  split; [exact Hp|]. exact (clean_fences_unwraps _ _ _ _ _ H1 H2 H1 H4 Hp).
Defined.
